(** * QP/C++ framework core: priority set and native active-object queue

    A shallow embedding of [qpset.h] (class [QPSet], both the one-word and
    the two-word variant) and of [qf_actq.cpp] ([QMActive::post_],
    [QMActive::postLIFO], [QMActive::get_], [QF::getQueueMin]), together
    with the properties the framework documentation states about them.

    Unsigned machine integers are values in [Z]; every place where the
    C++ code converts to a narrower unsigned type is written out as a
    reduction modulo a power of two. *)

From Stdlib Require Import ZArith Lia Bool List.
From stdpp Require Import base gmap list.

Local Open Scope Z_scope.

(** ** Fixed-width unsigned arithmetic *)

(** Conversion to an unsigned type of [w] bits ([static_cast<uintN_t>]). *)
Definition to_uint (w : Z) (x : Z) : Z := x mod 2 ^ w.

Definition u32 (x : Z) : Z := to_uint 32 x.
Definition u8 (x : Z) : Z := to_uint 8 x.

(** Modelled from the spec: the macro [QF_LOG2] is supplied by the port
    layer and is not among the files embedded here.  The documentation
    describes it as the 1-based "highest set bit" function:
    [log2(0) = 0] and [log2(x > 0) = 1 + floor(log2(x))]. *)
Definition QF_LOG2 (x : Z) : Z :=
  if x =? 0 then 0 else 1 + Z.log2 x.

(** ** Priority set, [QF_MAX_ACTIVE <= 32] *)

Module QPSet32.

Record QPSet : Type := mkQPSet { m_bits : Z }.

Definition setEmpty (_ : QPSet) : QPSet := {| m_bits := u32 0 |}.

Definition isEmpty (s : QPSet) : bool := m_bits s =? u32 0.

Definition notEmpty (s : QPSet) : bool := negb (m_bits s =? u32 0).

(** [n - 1] is the shift amount; the C++ shift is only defined for
    amounts [0..31], i.e. for [n] in [1..32]. *)
Definition hasElement (s : QPSet) (n : Z) : bool :=
  negb (Z.land (m_bits s) (u32 (Z.shiftl (u32 1) (n - 1))) =? u32 0).

Definition insert (s : QPSet) (n : Z) : QPSet :=
  {| m_bits := Z.lor (m_bits s) (u32 (u32 (Z.shiftl (u32 1) (n - 1)))) |}.

Definition remove (s : QPSet) (n : Z) : QPSet :=
  {| m_bits :=
      Z.land (m_bits s)
             (u32 (u32 (Z.lnot (u32 (Z.shiftl (u32 1) (n - 1)))))) |}.

(** The inline variant of [findMax], compiled when [QF_LOG2] is defined. *)
Definition findMax (s : QPSet) : Z := QF_LOG2 (m_bits s).

End QPSet32.

(** ** Priority set, [QF_MAX_ACTIVE > 32] *)

Module QPSet64.

(** [m_bits[0]] holds elements [1..32], [m_bits[1]] elements [33..64]. *)
Record QPSet : Type := mkQPSet { m_bits_0 : Z; m_bits_1 : Z }.

Definition setEmpty (_ : QPSet) : QPSet :=
  {| m_bits_0 := u32 0; m_bits_1 := u32 0 |}.

Definition isEmpty (s : QPSet) : bool :=
  if m_bits_0 s =? u32 0 then m_bits_1 s =? u32 0 else false.

Definition notEmpty (s : QPSet) : bool :=
  if negb (m_bits_0 s =? u32 0) then true else negb (m_bits_1 s =? u32 0).

Definition hasElement (s : QPSet) (n : Z) : bool :=
  if n <=? 32
  then negb (Z.land (m_bits_0 s) (u32 (Z.shiftl (u32 1) (n - 1))) =? u32 0)
  else negb (Z.land (m_bits_1 s) (u32 (Z.shiftl (u32 1) (n - 33))) =? u32 0).

Definition insert (s : QPSet) (n : Z) : QPSet :=
  if n <=? 32
  then {| m_bits_0 := Z.lor (m_bits_0 s) (u32 (Z.shiftl (u32 1) (n - 1)));
          m_bits_1 := m_bits_1 s |}
  else {| m_bits_0 := m_bits_0 s;
          m_bits_1 := Z.lor (m_bits_1 s) (u32 (Z.shiftl (u32 1) (n - 33))) |}.

Definition remove (s : QPSet) (n : Z) : QPSet :=
  if n <=? 32
  then {| m_bits_0 :=
            Z.land (m_bits_0 s) (u32 (Z.lnot (u32 (Z.shiftl (u32 1) (n - 1)))));
          m_bits_1 := m_bits_1 s |}
  else {| m_bits_0 := m_bits_0 s;
          m_bits_1 :=
            Z.land (m_bits_1 s)
                   (u32 (Z.lnot (u32 (Z.shiftl (u32 1) (n - 33))))) |}.

Definition findMax (s : QPSet) : Z :=
  if negb (m_bits_1 s =? u32 0)
  then QF_LOG2 (m_bits_1 s) + 32
  else QF_LOG2 (m_bits_0 s).

End QPSet64.

(** ** Sequences of set operations and the abstract set they denote *)

Inductive SetOp : Type :=
| Insert (n : Z)
| Remove (n : Z).

Definition op_elem (o : SetOp) : Z :=
  match o with Insert n | Remove n => n end.

Definition abs_step (S : gset Z) (o : SetOp) : gset Z :=
  match o with
  | Insert n => {[ n ]} ∪ S
  | Remove n => S ∖ {[ n ]}
  end.

Definition abs_run (ops : list SetOp) : gset Z := fold_left abs_step ops ∅.

Definition step32 (s : QPSet32.QPSet) (o : SetOp) : QPSet32.QPSet :=
  match o with
  | Insert n => QPSet32.insert s n
  | Remove n => QPSet32.remove s n
  end.

Definition step64 (s : QPSet64.QPSet) (o : SetOp) : QPSet64.QPSet :=
  match o with
  | Insert n => QPSet64.insert s n
  | Remove n => QPSet64.remove s n
  end.

Definition run32 (ops : list SetOp) : QPSet32.QPSet :=
  fold_left step32 ops (QPSet32.setEmpty (QPSet32.mkQPSet 0)).

Definition run64 (ops : list SetOp) : QPSet64.QPSet :=
  fold_left step64 ops (QPSet64.setEmpty (QPSet64.mkQPSet 0 0)).

(** [m] is the largest member of [S], or [0] when [S] is empty. *)
Definition is_max_of (S : gset Z) (m : Z) : Prop :=
  (S = ∅ ∧ m = 0) ∨ (m ∈ S ∧ ∀ x, x ∈ S → x <= m).

(** The elements of [ops] all lie in [1..hi]. *)
Definition ops_in_range (hi : Z) (ops : list SetOp) : Prop :=
  Forall (fun o => 1 <= op_elem o <= hi) ops.

(** ** Representation of the abstract set by machine words *)

Definition word32 (b : Z) : Prop := 0 <= b < 2 ^ 32.

(** [word_rep off b S]: bit [k] of the 32-bit word [b] is set exactly when
    the element [off + k + 1] belongs to [S]. *)
Definition word_rep (off b : Z) (S : gset Z) : Prop :=
  word32 b ∧ ∀ k, 0 <= k < 32 → (Z.testbit b k = true ↔ off + k + 1 ∈ S).

Definition rep32 (hi : Z) (s : QPSet32.QPSet) (S : gset Z) : Prop :=
  word_rep 0 (QPSet32.m_bits s) S ∧ ∀ x, x ∈ S → 1 <= x <= hi.

Definition rep64 (hi : Z) (s : QPSet64.QPSet) (S : gset Z) : Prop :=
  word_rep 0 (QPSet64.m_bits_0 s) S ∧ word_rep 32 (QPSet64.m_bits_1 s) S ∧
  ∀ x, x ∈ S → 1 <= x <= hi.


(** The words of a set hold values of their type, [uint32_t]. *)
Definition wf32 (s : QPSet32.QPSet) : Prop := word32 (QPSet32.m_bits s).

Definition wf64 (s : QPSet64.QPSet) : Prop :=
  word32 (QPSet64.m_bits_0 s) ∧ word32 (QPSet64.m_bits_1 s).

(** ** Events, the native event queue and the active object *)

(** Event pointers ([QEvt const *]) are addresses; [0] is the null pointer. *)
Abbreviation EvtPtr := Z.

(** [struct QEvt]: the signal, the pool id ([0] for a static event) and
    the reference counter (a [uint8_t]). *)
Record QEvt : Type := mkQEvt { sig : Z; poolId_ : Z; refCtr_ : Z }.

(** Modelled from the spec: the class [QEQueue] is declared in a header
    that is not among the files embedded here.  These are the members
    that [qf_actq.cpp] reads and writes, under the names it uses; the
    documentation lists the same ones ([frontEvt], [ring], [end], [head],
    [tail], [nFree], [nMin]).  [m_ring] is the caller-provided array of
    event pointers. *)
Record QEQueue : Type := mkQEQueue {
  m_frontEvt : EvtPtr;
  m_ring : list EvtPtr;
  m_end : Z;
  m_head : Z;
  m_tail : Z;
  m_nFree : Z;
  m_nMin : Z
}.

(** Modelled from the spec: of the class [QMActive], declared in a header
    that is not among the files embedded here, the queue code touches
    the owned event queue; the documentation adds the priority. *)
Record QMActive : Type := mkQMActive { m_eQueue : QEQueue; m_prio : Z }.

(** Modelled from the spec: the calls the queue code makes into the port
    layer ([queue_signal], [queue_on_empty]) and into the event pool
    ([gc]).  Their bodies belong to the port; a run records them. *)
Inductive PortCall : Type :=
| EQUEUE_SIGNAL                (* QACTIVE_EQUEUE_SIGNAL_(this) *)
| EQUEUE_ONEMPTY               (* QACTIVE_EQUEUE_ONEMPTY_(this) *)
| GC (e : EvtPtr).             (* QF::gc(e) *)

(** What a member function of [QMActive] works on: the object itself
    ([this]), the storage of the live events, and the calls made so far. *)
Record AOState : Type := mkAOState {
  me : QMActive;
  evts : gmap Z QEvt;
  port_log : list PortCall
}.

(** Result of running a piece of framework code: a normal return, a failed
    assertion (with the id of the [Q_ASSERT_ID]/[Q_REQUIRE_ID] site), a
    consumer that cannot proceed, or undefined behaviour of the C++ code
    (dereferencing a pointer to no event, indexing outside the ring). *)
Inductive outcome (A : Type) : Type :=
| Ok (a : A)
| AssertFail (id : Z)
| Blocked
| Undefined.

Arguments Ok {A} a.
Arguments AssertFail {A} id.
Arguments Blocked {A}.
Arguments Undefined {A}.

Definition bind {A B : Type} (m : outcome A) (k : A → outcome B) : outcome B :=
  match m with
  | Ok a => k a
  | AssertFail id => AssertFail id
  | Blocked => Blocked
  | Undefined => Undefined
  end.

Notation "'let*' x := m 'in' k" := (bind m (fun x => k))
  (at level 10, x pattern, m at level 100, k at level 200).

(** Field updates of [QEQueue]. *)
Definition set_frontEvt (q : QEQueue) (e : EvtPtr) : QEQueue :=
  mkQEQueue e (m_ring q) (m_end q) (m_head q) (m_tail q) (m_nFree q) (m_nMin q).
Definition set_ring (q : QEQueue) (r : list EvtPtr) : QEQueue :=
  mkQEQueue (m_frontEvt q) r (m_end q) (m_head q) (m_tail q) (m_nFree q) (m_nMin q).
Definition set_head (q : QEQueue) (v : Z) : QEQueue :=
  mkQEQueue (m_frontEvt q) (m_ring q) (m_end q) v (m_tail q) (m_nFree q) (m_nMin q).
Definition set_tail (q : QEQueue) (v : Z) : QEQueue :=
  mkQEQueue (m_frontEvt q) (m_ring q) (m_end q) (m_head q) v (m_nFree q) (m_nMin q).
Definition set_nFree (q : QEQueue) (v : Z) : QEQueue :=
  mkQEQueue (m_frontEvt q) (m_ring q) (m_end q) (m_head q) (m_tail q) v (m_nMin q).
Definition set_nMin (q : QEQueue) (v : Z) : QEQueue :=
  mkQEQueue (m_frontEvt q) (m_ring q) (m_end q) (m_head q) (m_tail q) (m_nFree q) v.

Definition set_eQueue (a : QMActive) (q : QEQueue) : QMActive :=
  mkQMActive q (m_prio a).

Definition set_refCtr (ev : QEvt) (c : Z) : QEvt :=
  mkQEvt (sig ev) (poolId_ ev) c.

(** [e->...]: the event a pointer refers to. *)
Definition deref (h : gmap Z QEvt) (e : EvtPtr) : outcome QEvt :=
  if e =? 0 then Undefined
  else match h !! e with Some ev => Ok ev | None => Undefined end.

(** Modelled from the spec: [QF_EVT_REF_CTR_INC_] is declared as a friend
    of [QEvt] and defined in a header that is not among the files
    embedded here; the documentation calls it [inc_ref(e)], the increment
    of the event's byte-wide reference counter. *)
Definition QF_EVT_REF_CTR_INC_ (e : EvtPtr) (ev : QEvt) (h : gmap Z QEvt)
  : gmap Z QEvt :=
  <[ e := set_refCtr ev (u8 (refCtr_ ev + 1)) ]> h.

(** Modelled from the spec: [QF_PTR_AT_(base, i)] is the array element
    [base[i]] (the documentation writes [ring[head]] and [ring[tail]]).
    An index outside the caller's array is undefined behaviour. *)
Definition ring_load (q : QEQueue) (i : Z) : outcome EvtPtr :=
  if i <? 0 then Undefined
  else match m_ring q !! Z.to_nat i with Some e => Ok e | None => Undefined end.

Definition ring_store (q : QEQueue) (i : Z) (e : EvtPtr) : outcome QEQueue :=
  if (0 <=? i) && (i <? Z.of_nat (length (m_ring q)))
  then Ok (set_ring q (<[ Z.to_nat i := e ]> (m_ring q)))
  else Undefined.

(** Operations on one active object, their results, and the abstract
    queue (a list of event pointers, oldest first) they act on. *)
Inductive QOp : Type :=
| OpPost (e : EvtPtr) (margin : Z)
| OpPostLIFO (e : EvtPtr)
| OpGet.

Inductive QRes : Type :=
| RPost (status : bool)
| RPostLIFO
| RGet (e : EvtPtr).

(** How many events an operation with result [r] added to the queue, and
    the number of events a queue holds after the results [rs], counted
    from the empty queue. *)
Definition res_delta (r : QRes) : Z :=
  match r with
  | RPost true => 1
  | RPost false => 0
  | RPostLIFO => 1
  | RGet _ => -1
  end.

Definition held_count (rs : list QRes) : Z :=
  fold_right (fun r n => res_delta r + n) 0 rs.

(** *** Example states

    Five events: [1], [2], [3] are static, [4] and [5] come from pool 1.
    The active object has priority 3 and a ring of four slots, as in the
    documentation's scenarios. *)
Definition demo_evts : gmap Z QEvt :=
  list_to_map [(1, mkQEvt 11 0 0); (2, mkQEvt 12 0 0); (3, mkQEvt 13 0 0);
               (4, mkQEvt 14 1 0); (5, mkQEvt 15 1 0)].

(** An event pool that never recycles anything. *)
Definition gc_none (e : EvtPtr) (h : gmap Z QEvt) : gmap Z QEvt := h.

(** The empty queue. *)
Definition demo_empty : AOState :=
  mkAOState (mkQMActive (mkQEQueue 0 [0; 0; 0; 0] 4 0 0 5 5) 3) demo_evts [].

(** Event [1] in the front slot, nothing in the ring. *)
Definition demo_one : AOState :=
  mkAOState (mkQMActive (mkQEQueue 1 [0; 0; 0; 0] 4 0 0 4 4) 3) demo_evts [].

(** Event [1] in the front slot, event [2] in the ring. *)
Definition demo_two : AOState :=
  mkAOState (mkQMActive (mkQEQueue 1 [2; 0; 0; 0] 4 3 0 3 3) 3) demo_evts [].

(** Events [1], [2], [3] queued: two slots are free. *)
Definition demo_three : AOState :=
  mkAOState (mkQMActive (mkQEQueue 1 [2; 0; 0; 3] 4 2 0 2 2) 3) demo_evts [].

(** Events [1], [2], [3], [4] queued: one slot is free. *)
Definition demo_four : AOState :=
  mkAOState (mkQMActive (mkQEQueue 1 [2; 0; 4; 3] 4 1 0 1 1) 3) demo_evts [].

(** All five slots taken. *)
Definition demo_full : AOState :=
  mkAOState (mkQMActive (mkQEQueue 1 [2; 5; 4; 3] 4 0 0 0 0) 3) demo_evts [].


(** Unfolding of the field updates. *)
Ltac queue_simpl :=
  cbv [set_eQueue set_frontEvt set_ring set_head set_tail set_nFree set_nMin];
  cbn [m_frontEvt m_ring m_end m_head m_tail m_nFree m_nMin m_eQueue m_prio
       me evts port_log bind andb].

Ltac min_done := rewrite ?Z.min_l, ?Z.min_r by lia; reflexivity.

Section ActiveQueue.

(** Width in bits of [QEQueueCtr], the unsigned type of the queue
    counters.  The typedef is made in a header that is not among the
    files embedded here. *)
Variable ctr_bits : Z.

(** Width in bits of [uint_fast16_t] on the target. *)
Variable fast16_bits : Z.

(** [QF_MAX_ACTIVE], the highest priority an active object can have. *)
Variable QF_MAX_ACTIVE : Z.

(** What [QF::gc] does to the event storage; the function is defined in
    a file that is not among those embedded here. *)
Variable gc : EvtPtr → gmap Z QEvt → gmap Z QEvt.

(** [static_cast<QEQueueCtr>(x)] and [static_cast<uint_fast16_t>(x)]. *)
Definition to_ctr (x : Z) : Z := to_uint ctr_bits x.
Definition to_fast16 (x : Z) : Z := to_uint fast16_bits x.

(** [QMActive::post_], built without [Q_SPY]. *)
Definition post_ (e : EvtPtr) (margin : Z) (s : AOState)
  : outcome (bool * AOState) :=
  if e =? 0 then AssertFail 100
  else
    let q := m_eQueue (me s) in
    let nFree := m_nFree q in
    if to_ctr margin <? nFree then
      let* ev := deref (evts s) e in
      let h := if negb (poolId_ ev =? u8 0)
               then QF_EVT_REF_CTR_INC_ e ev (evts s)
               else evts s in
      let nFree := to_ctr (nFree - 1) in
      let q := set_nFree q nFree in
      let q := if nFree <? m_nMin q then set_nMin q nFree else q in
      if m_frontEvt q =? 0 then
        let q := set_frontEvt q e in
        Ok (true, mkAOState (set_eQueue (me s) q) h
                            (port_log s ++ [EQUEUE_SIGNAL]))
      else
        let* q := ring_store q (m_head q) e in
        let q := if m_head q =? to_ctr 0 then set_head q (m_end q) else q in
        let q := set_head q (to_ctr (m_head q - 1)) in
        Ok (true, mkAOState (set_eQueue (me s) q) h (port_log s))
    else
      if margin =? 0 then AssertFail 110
      else
        Ok (false, mkAOState (me s) (gc e (evts s)) (port_log s ++ [GC e])).

(** [QMActive::postLIFO]. *)
Definition postLIFO (e : EvtPtr) (s : AOState) : outcome (unit * AOState) :=
  let q := m_eQueue (me s) in
  let nFree := m_nFree q in
  if nFree =? to_ctr 0 then AssertFail 210
  else
    let* ev := deref (evts s) e in
    let h := if negb (poolId_ ev =? u8 0)
             then QF_EVT_REF_CTR_INC_ e ev (evts s)
             else evts s in
    let nFree := to_ctr (nFree - 1) in
    let q := set_nFree q nFree in
    let q := if nFree <? m_nMin q then set_nMin q nFree else q in
    let frontEvt := m_frontEvt q in
    let q := set_frontEvt q e in
    if frontEvt =? 0 then
      Ok (tt, mkAOState (set_eQueue (me s) q) h
                        (port_log s ++ [EQUEUE_SIGNAL]))
    else
      let q := set_tail q (to_ctr (m_tail q + 1)) in
      let q := if m_tail q =? m_end q then set_tail q (to_ctr 0) else q in
      let* q := ring_store q (m_tail q) frontEvt in
      Ok (tt, mkAOState (set_eQueue (me s) q) h (port_log s)).

(** Modelled from the spec: [QACTIVE_EQUEUE_WAIT_] belongs to the port
    layer.  The documentation has the consumer wait for a non-empty queue
    on a blocking kernel and forbids the call on an empty queue on a
    cooperative kernel; either way the code after the macro only runs with
    an event in the front slot. *)
Definition QACTIVE_EQUEUE_WAIT_ (s : AOState) : outcome unit :=
  if m_frontEvt (m_eQueue (me s)) =? 0 then Blocked else Ok tt.

(** [QMActive::get_].  The sum in assertion 310 is formed after integer
    promotion and is written without wrap-around. *)
Definition get_ (s : AOState) : outcome (EvtPtr * AOState) :=
  let* _ := QACTIVE_EQUEUE_WAIT_ s in
  let q := m_eQueue (me s) in
  let e := m_frontEvt q in
  let nFree := to_ctr (m_nFree q + to_ctr 1) in
  let q := set_nFree q nFree in
  if nFree <=? m_end q then
    let* x := ring_load q (m_tail q) in
    let q := set_frontEvt q x in
    let q := if m_tail q =? to_ctr 0 then set_tail q (m_end q) else q in
    let q := set_tail q (to_ctr (m_tail q - 1)) in
    Ok (e, mkAOState (set_eQueue (me s) q) (evts s) (port_log s))
  else
    let q := set_frontEvt q 0 in
    if nFree =? m_end q + to_ctr 1 then
      Ok (e, mkAOState (set_eQueue (me s) q) (evts s)
                       (port_log s ++ [EQUEUE_ONEMPTY]))
    else AssertFail 310.

(** [QF::getQueueMin] on the framework's table [QF::active_] of registered
    active objects ([None] is the null pointer of an unused priority).
    The table is returned along with the result. *)
Definition getQueueMin (prio : Z) (active_ : list (option QMActive))
  : outcome (Z * list (option QMActive)) :=
  if prio <=? QF_MAX_ACTIVE then
    if prio <? 0 then Undefined
    else match active_ !! Z.to_nat prio with
         | None => Undefined
         | Some None => AssertFail 400
         | Some (Some a) => Ok (to_fast16 (m_nMin (m_eQueue a)), active_)
         end
  else AssertFail 400.

(** Modelled from the spec: [QEQueue::init] is defined in a file that is
    not among those embedded here.  A freshly constructed queue over the
    storage [qSto] of [qLen] slots is empty, [end] is the capacity,
    [nFree] counts the ring and the front slot, and [nMin] starts at
    [nFree]. *)
Definition QEQueue_init (qSto : list EvtPtr) (qLen : Z) : QEQueue :=
  {| m_frontEvt := 0;
     m_ring := qSto;
     m_end := to_ctr qLen;
     m_head := to_ctr 0;
     m_tail := to_ctr 0;
     m_nFree := to_ctr (qLen + 1);
     m_nMin := to_ctr (qLen + 1) |}.

Definition AO_init (prio : Z) (qSto : list EvtPtr) (qLen : Z)
           (h : gmap Z QEvt) : AOState :=
  mkAOState (mkQMActive (QEQueue_init qSto qLen) prio) h [].

(** *** Running sequences of operations *)

Definition exec (op : QOp) (s : AOState) : outcome (QRes * AOState) :=
  match op with
  | OpPost e margin => let* (b, s') := post_ e margin s in Ok (RPost b, s')
  | OpPostLIFO e => let* (_, s') := postLIFO e s in Ok (RPostLIFO, s')
  | OpGet => let* (e, s') := get_ s in Ok (RGet e, s')
  end.

Fixpoint run (ops : list QOp) (s : AOState) : outcome (list QRes * AOState) :=
  match ops with
  | [] => Ok ([], s)
  | op :: ops' =>
      let* (r, s1) := exec op s in
      let* (rs, s2) := run ops' s1 in
      Ok (r :: rs, s2)
  end.

(** The queue counters seen along a run: the value of [m_nFree] in the
    starting state and after every operation. *)
Fixpoint nFree_history (ops : list QOp) (s : AOState) : list Z :=
  m_nFree (m_eQueue (me s)) ::
  match ops with
  | [] => []
  | op :: ops' =>
      match exec op s with
      | Ok (_, s1) => nFree_history ops' s1
      | _ => []
      end
  end.

Definition list_min (x : Z) (l : list Z) : Z := fold_left Z.min l x.

(** *** Preconditions of the operations *)

(** A pointer to a live event. *)
Definition valid_evt (h : gmap Z QEvt) (e : EvtPtr) : Prop :=
  e ≠ 0 ∧ is_Some (h !! e).

Definition pre (op : QOp) (s : AOState) : Prop :=
  match op with
  | OpPost e margin =>
      valid_evt (evts s) e ∧ (margin = 0 → m_nFree (m_eQueue (me s)) ≠ 0)
  | OpPostLIFO e =>
      valid_evt (evts s) e ∧ m_nFree (m_eQueue (me s)) ≠ 0
  | OpGet => m_frontEvt (m_eQueue (me s)) ≠ 0
  end.

(** The preconditions hold before every operation of the sequence, in the
    state the preceding operations have led to. *)
Fixpoint respects (ops : list QOp) (s : AOState) : Prop :=
  match ops with
  | [] => True
  | op :: ops' =>
      pre op s ∧
      match exec op s with
      | Ok (_, s1) => respects ops' s1
      | _ => True
      end
  end.

(** *** The abstract queue *)

(** The effect of one operation on the list of events held, oldest first,
    for a queue of capacity [cap] (ring slots; the front slot is extra). *)
Definition abs_exec (cap : Z) (op : QOp) (l : list EvtPtr) : list EvtPtr :=
  match op with
  | OpPost e margin =>
      if to_ctr margin <? cap + 1 - Z.of_nat (length l) then l ++ [e] else l
  | OpPostLIFO e => e :: l
  | OpGet => tail l
  end.

Definition abs_held (cap : Z) (ops : list QOp) (l : list EvtPtr) : list EvtPtr :=
  fold_left (fun l op => abs_exec cap op l) ops l.

(** The events [rest] sit in the ring of [m] slots, the [i]-th of them
    [i] slots below [tail], cyclically. *)
Definition ring_slots (ring : list EvtPtr) (m tail : Z) (rest : list EvtPtr)
  : Prop :=
  ∀ (i : nat) x, rest !! i = Some x →
    ring !! Z.to_nat ((tail - Z.of_nat i) mod m) = Some x.

(** [Rep q l]: the queue [q] holds exactly the events [l], oldest first.
    The oldest is in the front slot, the others are in the ring below
    [m_tail], and [m_head] is the slot below the youngest of them.  The
    counters fit their type, and [m_nFree] counts the unused slots. *)
Definition Rep (q : QEQueue) (l : list EvtPtr) : Prop :=
  0 <= m_end q ∧ m_end q + 1 < 2 ^ ctr_bits ∧
  Z.of_nat (length (m_ring q)) = m_end q ∧
  0 <= m_head q ∧ 0 <= m_tail q ∧
  (0 < m_end q → m_head q < m_end q ∧ m_tail q < m_end q) ∧
  0 <= m_nMin q <= m_nFree q ∧
  m_nFree q + Z.of_nat (length l) = m_end q + 1 ∧
  Forall (fun e => e ≠ 0) l ∧
  m_frontEvt q = hd 0 l ∧
  (0 < m_end q →
   m_head q = (m_tail q - Z.of_nat (length (tl l))) mod m_end q) ∧
  ring_slots (m_ring q) (m_end q) (m_tail q) (tl l).

(** Where [post_] puts the event [e]: into the front slot of an empty
    queue, otherwise into [ring[head]], after which the head wraps and is
    decremented (in the arithmetic of the counter type). *)
Definition fifo_stored (e : EvtPtr) (q q' : QEQueue) : Prop :=
  m_tail q' = m_tail q ∧ m_end q' = m_end q ∧
  if m_frontEvt q =? 0
  then m_frontEvt q' = e ∧ m_ring q' = m_ring q ∧ m_head q' = m_head q
  else m_frontEvt q' = m_frontEvt q ∧
       m_ring q' = <[ Z.to_nat (m_head q) := e ]> (m_ring q) ∧
       m_head q' = to_ctr ((if m_head q =? 0 then m_end q else m_head q) - 1).

(** The posts of a list of events, each with its margin. *)
Definition posts (l : list (EvtPtr * Z)) : list QOp :=
  map (fun p => OpPost (fst p) (snd p)) l.

(** Each of the posts finds more free slots than its margin asks for,
    starting with [n] free slots. *)
Fixpoint capacity_for (n : Z) (l : list (EvtPtr * Z)) : Prop :=
  match l with
  | [] => True
  | p :: l' => to_ctr (snd p) < n ∧ capacity_for (n - 1) l'
  end.

(** Every event of the storage keeps its signal and pool id between [h]
    and [h'], and its reference counter changes only for the enqueued
    event [e], which counts one more reference if it is a pool event. *)
Definition enqueue_effect (e : EvtPtr) (h h' : gmap Z QEvt) : Prop :=
  ∀ p, h' !! p =
       match h !! p with
       | Some ev =>
           Some (mkQEvt (sig ev) (poolId_ ev)
                        (if (p =? e) && negb (poolId_ ev =? 0)
                         then u8 (refCtr_ ev + 1) else refCtr_ ev))
       | None => None
       end.


(** *** Bookkeeping over a run *)

(** The events a run has accepted into the queue (posts that returned
    [true], and LIFO posts), the events it has refused, and the events
    [get_] has returned, each in the order of the run. *)
Fixpoint accepted (ops : list QOp) (rs : list QRes) : list EvtPtr :=
  match ops, rs with
  | OpPost e _ :: ops', RPost true :: rs' => e :: accepted ops' rs'
  | OpPostLIFO e :: ops', _ :: rs' => e :: accepted ops' rs'
  | _ :: ops', _ :: rs' => accepted ops' rs'
  | _, _ => []
  end.

Fixpoint refused (ops : list QOp) (rs : list QRes) : list EvtPtr :=
  match ops, rs with
  | OpPost e _ :: ops', RPost false :: rs' => e :: refused ops' rs'
  | _ :: ops', _ :: rs' => refused ops' rs'
  | _, _ => []
  end.

Fixpoint delivered (rs : list QRes) : list EvtPtr :=
  match rs with
  | RGet e :: rs' => e :: delivered rs'
  | _ :: rs' => delivered rs'
  | [] => []
  end.

(** The events handed to [QF::gc], in the order of the calls. *)
Fixpoint gc_calls (log : list PortCall) : list EvtPtr :=
  match log with
  | GC e :: log' => e :: gc_calls log'
  | _ :: log' => gc_calls log'
  | [] => []
  end.

(** Queue signals raised minus queue-empty notifications made. *)
Fixpoint signal_balance (log : list PortCall) : Z :=
  match log with
  | EQUEUE_SIGNAL :: log' => 1 + signal_balance log'
  | EQUEUE_ONEMPTY :: log' => -1 + signal_balance log'
  | GC _ :: log' => signal_balance log'
  | [] => 0
  end.

(** How often the event [p] occurs in a list of events. *)
Definition occurrences (p : EvtPtr) (l : list EvtPtr) : Z :=
  Z.of_nat (length (filter (fun e => e = p) l)).

(** The macro [QEVT_INITIALIZER(sig_)] of [qevt.h]: the initializer of a
    static event, with the signal converted to [QSignal], an unsigned
    type of [Q_SIGNAL_SIZE] bytes. *)
Definition QEVT_INITIALIZER (Q_SIGNAL_SIZE : Z) (sig_ : Z) : QEvt :=
  {| sig := to_uint (8 * Q_SIGNAL_SIZE) sig_; poolId_ := u8 0; refCtr_ := u8 0 |}.

(** The port calls one operation makes, given its result and the state
    it started in. *)
Definition op_calls (op : QOp) (r : QRes) (s : AOState) : list PortCall :=
  match op, r with
  | OpPost e _, RPost false => [GC e]
  | OpPost _ _, _ | OpPostLIFO _, _ =>
      if m_frontEvt (m_eQueue (me s)) =? 0 then [EQUEUE_SIGNAL] else []
  | OpGet, _ =>
      if to_ctr (m_nFree (m_eQueue (me s)) + to_ctr 1) <=? m_end (m_eQueue (me s))
      then [] else [EQUEUE_ONEMPTY]
  end.

(** The results the abstract queue predicts: a post succeeds when the
    free slots exceed the margin, [get_] returns the oldest event. *)
Definition abs_res (cap : Z) (op : QOp) (l : list EvtPtr) : QRes :=
  match op with
  | OpPost _ margin => RPost (to_ctr margin <? cap + 1 - Z.of_nat (length l))
  | OpPostLIFO _ => RPostLIFO
  | OpGet => RGet (hd 0 l)
  end.

Fixpoint abs_results (cap : Z) (ops : list QOp) (l : list EvtPtr) : list QRes :=
  match ops with
  | [] => []
  | op :: ops' => abs_res cap op l :: abs_results cap ops' (abs_exec cap op l)
  end.

(** An event after [n] accepted enqueues: the reference counter of a pool
    event has been incremented [n] times as a byte, nothing else has
    changed. *)
Definition counted (n : Z) (ev : QEvt) : QEvt :=
  mkQEvt (sig ev) (poolId_ ev)
         (if (poolId_ ev =? 0) || (n =? 0) then refCtr_ ev
          else u8 (refCtr_ ev + n)).

(** ** Arithmetic of the queue counters *)

Lemma to_ctr_small x : 0 <= x < 2 ^ ctr_bits → to_ctr x = x.
Proof. intros H. unfold to_ctr, to_uint. apply Z.mod_small. lia. Qed.

Lemma to_ctr_0 : to_ctr 0 = 0.
Proof. unfold to_ctr, to_uint. apply Zmod_0_l. Qed.

Lemma to_ctr_nonneg x : 0 < 2 ^ ctr_bits → 0 <= to_ctr x < 2 ^ ctr_bits.
Proof. intros H. unfold to_ctr, to_uint. apply Z.mod_pos_bound. lia. Qed.

(** The index disciplines of the source, as arithmetic modulo the ring
    size: "wrap, then decrement" and "increment, then wrap". *)
Lemma wrap_dec m i :
  0 < m → 0 <= i < m → (if i =? 0 then m else i) - 1 = (i - 1) mod m.
Proof.
  intros Hm Hi. destruct (Z.eqb_spec i 0) as [->|Hne].
  - symmetry. replace (0 - 1) with (m - 1 + (-1) * m) by lia.
    rewrite Z.mod_add by lia. apply Z.mod_small. lia.
  - symmetry. apply Z.mod_small. lia.
Qed.

Lemma inc_wrap m i :
  0 < m → 0 <= i < m → (if i + 1 =? m then 0 else i + 1) = (i + 1) mod m.
Proof.
  intros Hm Hi. destruct (Z.eqb_spec (i + 1) m) as [->|Hne].
  - symmetry. apply Z_mod_same_full.
  - symmetry. apply Z.mod_small. lia.
Qed.

Lemma mod_sub_shift m a b c :
  0 < m → ((a - b) mod m - c) mod m = (a - (b + c)) mod m.
Proof.
  intros Hm. rewrite Zminus_mod_idemp_l. f_equal. lia.
Qed.

Lemma mod_add_shift m a b :
  0 < m → ((a + 1) mod m - (b + 1)) mod m = (a - b) mod m.
Proof.
  intros Hm. rewrite Zminus_mod_idemp_l. f_equal. lia.
Qed.

(** Slots at different distances below the tail are different slots. *)
Lemma slots_apart m t i j :
  0 < m → i < j → j < i + m → (t - i) mod m ≠ (t - j) mod m.
Proof.
  intros Hm Hij Hj Heq.
  assert (H : (j - i) mod m = 0).
  { replace (j - i) with ((t - i) - (t - j)) by lia.
    rewrite Zminus_mod, Heq, Z.sub_diag. apply Zmod_0_l. }
  rewrite Z.mod_small in H by lia. lia.
Qed.

Lemma mod_range m a : 0 < m → 0 <= a mod m < m.
Proof. intros. apply Z.mod_pos_bound. lia. Qed.

(** ** The ring as a stack of slots below the tail *)

Lemma ring_slots_nil ring m t : ring_slots ring m t [].
Proof. intros i x H. rewrite lookup_nil in H. discriminate. Qed.

Lemma ring_slots_snoc ring m t rest e :
  0 < m → Z.of_nat (length ring) = m → Z.of_nat (length rest) < m →
  ring_slots ring m t rest →
  ring_slots (<[ Z.to_nat ((t - Z.of_nat (length rest)) mod m) := e ]> ring)
             m t (rest ++ [e]).
Proof.
  intros Hm Hlen Hr Hs i x Hi.
  pose proof (mod_range m (t - Z.of_nat (length rest)) Hm) as Hb.
  pose proof (mod_range m (t - Z.of_nat i) Hm) as Hbi.
  destruct (decide (i < length rest)%nat) as [Hlt|Hge].
  - rewrite lookup_app_l in Hi by assumption.
    rewrite list_lookup_insert_ne; [now apply Hs|].
    intros Heq. apply Z2Nat.inj in Heq; try lia.
    symmetry in Heq. revert Heq. apply slots_apart; lia.
  - rewrite lookup_app_r in Hi by lia.
    destruct (i - length rest)%nat as [|k] eqn:Hk; simpl in Hi; [|rewrite lookup_nil in Hi; discriminate].
    injection Hi as <-. assert (i = length rest) as -> by lia.
    apply list_lookup_insert_eq. lia.
Qed.

Lemma ring_slots_cons ring m t rest f :
  0 < m → Z.of_nat (length ring) = m → Z.of_nat (length rest) < m →
  ring_slots ring m t rest →
  ring_slots (<[ Z.to_nat ((t + 1) mod m) := f ]> ring) m ((t + 1) mod m)
             (f :: rest).
Proof.
  intros Hm Hlen Hr Hs i x Hi.
  pose proof (mod_range m (t + 1) Hm) as Hb.
  destruct i as [|k]; simpl in Hi.
  - injection Hi as <-. rewrite Z.sub_0_r, Z.mod_mod by lia.
    apply list_lookup_insert_eq. lia.
  - assert (Hk : (k < length rest)%nat) by (apply lookup_lt_Some in Hi; assumption).
    replace (Z.of_nat (S k)) with (Z.of_nat k + 1) by lia.
    rewrite mod_add_shift by assumption.
    pose proof (mod_range m (t - Z.of_nat k) Hm) as Hbk.
    rewrite list_lookup_insert_ne; [now apply Hs|].
    intros Heq. apply Z2Nat.inj in Heq; try lia.
    revert Heq. replace (t + 1) with (t - (-1)) by lia.
    apply slots_apart; lia.
Qed.

Lemma ring_slots_head ring m t x rest :
  0 <= t < m → ring_slots ring m t (x :: rest) → ring !! Z.to_nat t = Some x.
Proof.
  intros Ht Hs. specialize (Hs 0%nat x eq_refl). simpl in Hs.
  now rewrite Z.sub_0_r, Z.mod_small in Hs by lia.
Qed.

Lemma ring_slots_tail ring m t x rest :
  0 < m → ring_slots ring m t (x :: rest) →
  ring_slots ring m ((t - 1) mod m) rest.
Proof.
  intros Hm Hs i y Hi. rewrite mod_sub_shift by assumption.
  specialize (Hs (S i) y Hi).
  now replace (Z.of_nat (S i)) with (1 + Z.of_nat i) in Hs by lia.
Qed.

(** ** Reference counting on enqueue *)

Lemma enqueue_effect_inc e ev (h : gmap Z QEvt) :
  h !! e = Some ev →
  enqueue_effect e h (if negb (poolId_ ev =? u8 0)
                      then QF_EVT_REF_CTR_INC_ e ev h else h).
Proof.
  intros Hev p. change (u8 0) with 0.
  destruct (Z.eqb_spec p e) as [->|Hne]; simpl.
  - rewrite Hev. destruct (poolId_ ev =? 0); simpl.
    + now destruct ev.
    + unfold QF_EVT_REF_CTR_INC_. now rewrite lookup_insert_eq.
  - assert (Hp : (if negb (poolId_ ev =? 0)
                  then QF_EVT_REF_CTR_INC_ e ev h else h) !! p = h !! p).
    { destruct (negb (poolId_ ev =? 0)); [|reflexivity].
      unfold QF_EVT_REF_CTR_INC_. apply lookup_insert_ne. congruence. }
    rewrite Hp. destruct (h !! p) as [[? ? ?]|]; reflexivity.
Qed.


Lemma enqueue_effect_valid e h h' p :
  enqueue_effect e h h' → valid_evt h p → valid_evt h' p.
Proof.
  intros He [Hp [ev Hev]]. split; [assumption|].
  rewrite (He p), Hev. eauto.
Qed.

(** ** The operations in closed form

    Each function is rewritten, for a state given field by field, into
    the state it returns; the bookkeeping of the minimum becomes [Z.min]. *)

Lemma post__accept e margin front ring en head tail nFree nMin prio h log ev :
  e ≠ 0 → to_ctr margin < nFree → h !! e = Some ev →
  post_ e margin
        (mkAOState (mkQMActive (mkQEQueue front ring en head tail nFree nMin) prio) h log)
  = let n := to_ctr (nFree - 1) in
    let h' := if negb (poolId_ ev =? u8 0)
              then QF_EVT_REF_CTR_INC_ e ev h else h in
    if front =? 0 then
      Ok (true, mkAOState (mkQMActive (mkQEQueue e ring en head tail n (Z.min nMin n)) prio)
                          h' (log ++ [EQUEUE_SIGNAL]))
    else if (0 <=? head) && (head <? Z.of_nat (length ring)) then
      Ok (true, mkAOState
                  (mkQMActive
                     (mkQEQueue front (<[ Z.to_nat head := e ]> ring) en
                                (to_ctr ((if head =? 0 then en else head) - 1))
                                tail n (Z.min nMin n)) prio)
                  h' log)
    else Undefined.
Proof.
  intros Hne Hm Hev. unfold post_, deref. simpl.
  destruct (Z.eqb_spec e 0) as [?|_]; [contradiction|].
  destruct (Z.ltb_spec (to_ctr margin) nFree) as [_|?]; [|lia].
  rewrite Hev. cbn [bind]. rewrite to_ctr_0.
  destruct (Z.ltb_spec (to_ctr (nFree - 1)) nMin); queue_simpl;
    (destruct (front =? 0); queue_simpl;
     [ min_done
     | unfold ring_store; queue_simpl;
       destruct ((0 <=? head) && (head <? Z.of_nat (length ring))); queue_simpl;
       [ destruct (head =? 0); queue_simpl; min_done | reflexivity ] ]).
Qed.

Lemma post__refuse e margin s :
  e ≠ 0 → margin ≠ 0 → m_nFree (m_eQueue (me s)) <= to_ctr margin →
  post_ e margin s =
  Ok (false, mkAOState (me s) (gc e (evts s)) (port_log s ++ [GC e])).
Proof.
  intros Hne Hm Hn. unfold post_.
  destruct (Z.eqb_spec e 0) as [?|_]; [contradiction|].
  destruct (Z.ltb_spec (to_ctr margin) (m_nFree (m_eQueue (me s)))) as [?|_]; [lia|].
  destruct (Z.eqb_spec margin 0) as [?|_]; [contradiction|]. reflexivity.
Qed.

Lemma postLIFO_accept e front ring en head tail nFree nMin prio h log ev :
  nFree ≠ 0 → e ≠ 0 → h !! e = Some ev →
  postLIFO e
        (mkAOState (mkQMActive (mkQEQueue front ring en head tail nFree nMin) prio) h log)
  = let n := to_ctr (nFree - 1) in
    let h' := if negb (poolId_ ev =? u8 0)
              then QF_EVT_REF_CTR_INC_ e ev h else h in
    if front =? 0 then
      Ok (tt, mkAOState (mkQMActive (mkQEQueue e ring en head tail n (Z.min nMin n)) prio)
                        h' (log ++ [EQUEUE_SIGNAL]))
    else
      let t := if to_ctr (tail + 1) =? en then 0 else to_ctr (tail + 1) in
      if (0 <=? t) && (t <? Z.of_nat (length ring)) then
        Ok (tt, mkAOState
                  (mkQMActive
                     (mkQEQueue e (<[ Z.to_nat t := front ]> ring) en head t n
                                (Z.min nMin n)) prio)
                  h' log)
      else Undefined.
Proof.
  intros Hn Hne Hev. unfold postLIFO, deref. simpl. rewrite to_ctr_0.
  destruct (Z.eqb_spec nFree 0) as [?|_]; [contradiction|].
  destruct (Z.eqb_spec e 0) as [?|_]; [contradiction|].
  rewrite Hev. cbn [bind].
  destruct (Z.ltb_spec (to_ctr (nFree - 1)) nMin); queue_simpl;
    (destruct (front =? 0); queue_simpl;
     [ min_done
     | destruct (to_ctr (tail + 1) =? en); queue_simpl;
       unfold ring_store; queue_simpl;
       match goal with
       | |- context [(0 <=? ?t) && (?t <? ?n)] =>
           destruct ((0 <=? t) && (t <? n)); queue_simpl;
           [ min_done | reflexivity ]
       end ]).
Qed.

Lemma get__nonempty front ring en head tail nFree nMin prio h log :
  front ≠ 0 →
  get_ (mkAOState (mkQMActive (mkQEQueue front ring en head tail nFree nMin) prio) h log)
  = let n := to_ctr (nFree + to_ctr 1) in
    if n <=? en then
      if tail <? 0 then Undefined
      else match ring !! Z.to_nat tail with
           | Some x =>
               Ok (front,
                   mkAOState
                     (mkQMActive
                        (mkQEQueue x ring en head
                                   (to_ctr ((if tail =? 0 then en else tail) - 1))
                                   n nMin) prio) h log)
           | None => Undefined
           end
    else if n =? en + to_ctr 1 then
      Ok (front,
          mkAOState (mkQMActive (mkQEQueue 0 ring en head tail n nMin) prio)
                    h (log ++ [EQUEUE_ONEMPTY]))
    else AssertFail 310.
Proof.
  intros Hf. unfold get_, QACTIVE_EQUEUE_WAIT_. simpl.
  destruct (Z.eqb_spec front 0) as [?|_]; [contradiction|]. cbn [bind].
  rewrite to_ctr_0.
  destruct (to_ctr (nFree + to_ctr 1) <=? en); queue_simpl.
  - unfold ring_load; queue_simpl. destruct (tail <? 0); [reflexivity|].
    destruct (ring !! Z.to_nat tail); queue_simpl; [|reflexivity].
    destruct (tail =? 0); reflexivity.
  - reflexivity.
Qed.

(** ** The three operations on a well-formed queue *)

Lemma Rep_pow l q : Rep q l → 0 < 2 ^ ctr_bits.
Proof. intros (He & Hw & _). lia. Qed.

Lemma Rep_front_null q l : Rep q l → (m_frontEvt q = 0 ↔ l = []).
Proof using ctr_bits.
  intros (_ & _ & _ & _ & _ & _ & _ & _ & Hnn & Hf & _).
  destruct l as [|x l]; simpl in Hf.
  - split; [reflexivity | intros _; exact Hf].
  - apply Forall_cons in Hnn as [Hx _].
    split; [intros H0; rewrite Hf in H0; contradiction | discriminate].
Qed.

Lemma Rep_counts q l :
  Rep q l →
  m_nFree q + Z.of_nat (length l) = m_end q + 1 ∧
  0 <= m_nMin q <= m_nFree q ∧ m_nFree q < 2 ^ ctr_bits.
Proof. intros (He & Hw & _ & _ & _ & _ & Hmin & Hcnt & _). lia. Qed.

Ltac open_Rep H :=
  destruct H as (He & Hw & Hlen & Hh & Ht & Hht & Hmin & Hcnt & Hnn & Hf & Hhd & Hs);
  cbn [m_frontEvt m_ring m_end m_head m_tail m_nFree m_nMin]
    in He, Hw, Hlen, Hh, Ht, Hht, Hmin, Hcnt, Hnn, Hf, Hhd, Hs.

Lemma post__success e margin s l :
  Rep (m_eQueue (me s)) l → valid_evt (evts s) e →
  to_ctr margin < m_nFree (m_eQueue (me s)) →
  ∃ s', post_ e margin s = Ok (true, s') ∧
        Rep (m_eQueue (me s')) (l ++ [e]) ∧
        m_nFree (m_eQueue (me s')) = m_nFree (m_eQueue (me s)) - 1 ∧
        m_nMin (m_eQueue (me s')) =
          Z.min (m_nMin (m_eQueue (me s))) (m_nFree (m_eQueue (me s)) - 1) ∧
        m_end (m_eQueue (me s')) = m_end (m_eQueue (me s)) ∧
        enqueue_effect e (evts s) (evts s') ∧
        m_prio (me s') = m_prio (me s).
Proof.
  intros HR [Hne [ev Hev]] Hm.
  pose proof (to_ctr_nonneg margin (Rep_pow _ _ HR)) as Hmg.
  pose proof (Rep_front_null _ _ HR) as Hfn.
  destruct s as [[[front ring en head tail nFree nMin] prio] h log].
  cbn [me evts m_eQueue port_log m_nFree] in HR, Hfn, Hm, Hev |- *.
  rewrite (post__accept _ _ _ _ _ _ _ _ _ _ _ _ ev) by assumption.
  pose proof (enqueue_effect_inc e ev h Hev) as Heff.
  open_Rep HR. cbv zeta.
  rewrite (to_ctr_small (nFree - 1)) by lia.
  destruct (Z.eqb_spec front 0) as [Hf0|Hf0].
  - (* the queue is empty: the event goes to the front slot *)
    assert (l = []) as -> by (apply Hfn; assumption).
    eexists. split; [reflexivity|]. queue_simpl. simpl in Hcnt, Hf, Hhd, Hs, Hnn |- *.
    split; [|split; [|split; [|split; [|split]]]];
      try assumption; try reflexivity.
    unfold Rep; queue_simpl. simpl.
    repeat split; try assumption; try lia.
    constructor; [assumption | constructor].
  - (* events are queued: the event goes to the ring *)
    destruct l as [|f rest]; [exfalso; apply Hf0, Hfn; reflexivity|]. simpl in Hcnt, Hf, Hhd, Hs.
    assert (Hpos : 0 < en) by lia.
    destruct (Hht Hpos) as [Hh1 Ht1]. specialize (Hhd Hpos).
    pose proof (mod_range en (head - 1) Hpos) as Hb.
    destruct (Z.leb_spec 0 head) as [_|?]; [|lia].
    destruct (Z.ltb_spec head (Z.of_nat (length ring))) as [_|?]; [|lia].
    queue_simpl. rewrite (wrap_dec en head) by lia.
    rewrite (to_ctr_small ((head - 1) mod en)) by lia.
    eexists. split; [reflexivity|]. queue_simpl.
    split; [|split; [|split; [|split; [|split]]]];
      try assumption; try reflexivity.
    unfold Rep; queue_simpl. simpl length. simpl tl. simpl hd.
    repeat split; try assumption; try lia.
    + now rewrite length_insert.
    + rewrite length_app. simpl. lia.
    + apply Forall_app. split; [assumption | constructor; [assumption | constructor]].
    + intros _. rewrite length_app. simpl. rewrite Hhd, mod_sub_shift by lia.
      f_equal. lia.
    + rewrite Hhd. apply ring_slots_snoc; try assumption. lia.
Qed.

Lemma postLIFO_success e s l :
  Rep (m_eQueue (me s)) l → valid_evt (evts s) e →
  m_nFree (m_eQueue (me s)) ≠ 0 →
  ∃ s', postLIFO e s = Ok (tt, s') ∧
        Rep (m_eQueue (me s')) (e :: l) ∧
        m_nFree (m_eQueue (me s')) = m_nFree (m_eQueue (me s)) - 1 ∧
        m_nMin (m_eQueue (me s')) =
          Z.min (m_nMin (m_eQueue (me s))) (m_nFree (m_eQueue (me s)) - 1) ∧
        m_end (m_eQueue (me s')) = m_end (m_eQueue (me s)) ∧
        enqueue_effect e (evts s) (evts s') ∧
        m_prio (me s') = m_prio (me s).
Proof using ctr_bits.
  intros HR [Hne [ev Hev]] Hn.
  pose proof (Rep_front_null _ _ HR) as Hfn.
  destruct s as [[[front ring en head tail nFree nMin] prio] h log].
  cbn [me evts m_eQueue port_log m_nFree] in HR, Hfn, Hn, Hev |- *.
  rewrite (postLIFO_accept _ _ _ _ _ _ _ _ _ _ _ ev) by assumption.
  pose proof (enqueue_effect_inc e ev h Hev) as Heff.
  open_Rep HR. cbv zeta.
  rewrite (to_ctr_small (nFree - 1)) by lia.
  destruct (Z.eqb_spec front 0) as [Hf0|Hf0].
  - (* the queue is empty *)
    assert (l = []) as -> by (apply Hfn; assumption).
    eexists. split; [reflexivity|]. queue_simpl. simpl in Hcnt, Hf, Hhd, Hs, Hnn |- *.
    split; [|split; [|split; [|split; [|split]]]];
      try assumption; try reflexivity.
    unfold Rep; queue_simpl. simpl.
    repeat split; try assumption; try lia.
    constructor; [assumption | constructor].
  - (* the old front event moves to the ring, above the tail *)
    destruct l as [|f rest]; [exfalso; apply Hf0, Hfn; reflexivity|]. simpl in Hcnt, Hf, Hhd, Hs.
    assert (Hpos : 0 < en) by lia.
    destruct (Hht Hpos) as [Hh1 Ht1]. specialize (Hhd Hpos).
    rewrite (to_ctr_small (tail + 1)) by lia.
    rewrite (inc_wrap en tail) by lia.
    pose proof (mod_range en (tail + 1) Hpos) as Hb.
    destruct (Z.leb_spec 0 ((tail + 1) mod en)) as [_|?]; [|lia].
    destruct (Z.ltb_spec ((tail + 1) mod en) (Z.of_nat (length ring))) as [_|?]; [|lia].
    queue_simpl.
    eexists. split; [reflexivity|]. queue_simpl.
    split; [|split; [|split; [|split; [|split]]]];
      try assumption; try reflexivity.
    unfold Rep; queue_simpl. simpl length. simpl tl. simpl hd.
    repeat split; try assumption; try lia.
    + now rewrite length_insert.
    + constructor; assumption.
    + intros _. replace (Z.of_nat (S (length rest))) with (Z.of_nat (length rest) + 1) by lia.
      now rewrite mod_add_shift.
    + rewrite Hf. apply ring_slots_cons; try assumption. lia.
Qed.

Lemma get__success s x l :
  Rep (m_eQueue (me s)) (x :: l) →
  ∃ s', get_ s = Ok (x, s') ∧
        Rep (m_eQueue (me s')) l ∧
        m_nFree (m_eQueue (me s')) = m_nFree (m_eQueue (me s)) + 1 ∧
        m_nMin (m_eQueue (me s')) = m_nMin (m_eQueue (me s)) ∧
        m_end (m_eQueue (me s')) = m_end (m_eQueue (me s)) ∧
        evts s' = evts s ∧
        m_prio (me s') = m_prio (me s).
Proof using ctr_bits.
  intros HR.
  pose proof (Rep_front_null _ _ HR) as Hfn.
  destruct s as [[[front ring en head tail nFree nMin] prio] h log].
  cbn [me evts m_eQueue port_log] in HR, Hfn |- *.
  assert (Hf0 : front ≠ 0) by (intros H0; apply Hfn in H0; discriminate).
  rewrite get__nonempty by assumption.
  open_Rep HR. simpl in Hcnt, Hf, Hhd, Hs. cbv zeta.
  rewrite (to_ctr_small 1) by lia.
  rewrite (to_ctr_small (nFree + 1)) by lia.
  destruct (Z.leb_spec (nFree + 1) en) as [Hle|Hgt].
  - (* the ring holds the next event *)
    destruct l as [|y l']; [simpl in Hcnt; lia|].
    assert (Hpos : 0 < en) by lia.
    destruct (Hht Hpos) as [Hh1 Ht1]. specialize (Hhd Hpos).
    destruct (Z.ltb_spec tail 0) as [?|_]; [lia|].
    rewrite (ring_slots_head ring en tail y l') by (assumption || lia).
    rewrite (wrap_dec en tail) by lia.
    pose proof (mod_range en (tail - 1) Hpos) as Hb.
    rewrite (to_ctr_small ((tail - 1) mod en)) by lia.
    eexists. split; [now rewrite Hf|]. queue_simpl.
    split; [|split; [|split; [|split; [|split]]]];
      try assumption; try reflexivity.
    unfold Rep; queue_simpl. simpl length in *. simpl tl. simpl hd.
    apply Forall_cons in Hnn as [_ Hnn].
    repeat split; try assumption; try lia.
    + intros _. rewrite mod_sub_shift by lia. rewrite Hhd. f_equal. lia.
    + now apply (ring_slots_tail ring en tail y l').
  - (* the last event leaves: the queue is empty *)
    destruct l as [|y l']; [|simpl in Hcnt; lia]. simpl in Hcnt, Hf, Hhd, Hs, Hnn |- *.
    destruct (Z.eqb_spec (nFree + 1) (en + 1)) as [_|?]; [|lia].
    eexists. split; [now rewrite Hf|]. queue_simpl.
    split; [|split; [|split; [|split; [|split]]]];
      try assumption; try reflexivity.
    unfold Rep; queue_simpl. simpl.
    repeat split; try assumption; try lia. constructor.
Qed.

(** ** Sequences of operations *)

Lemma exec_step op s l :
  Rep (m_eQueue (me s)) l → pre op s →
  ∃ r s', exec op s = Ok (r, s') ∧
          Rep (m_eQueue (me s')) (abs_exec (m_end (m_eQueue (me s))) op l) ∧
          m_end (m_eQueue (me s')) = m_end (m_eQueue (me s)) ∧
          m_nMin (m_eQueue (me s')) =
            Z.min (m_nMin (m_eQueue (me s))) (m_nFree (m_eQueue (me s'))) ∧
          m_prio (me s') = m_prio (me s) ∧
          Z.of_nat (length (abs_exec (m_end (m_eQueue (me s))) op l)) =
            Z.of_nat (length l) + res_delta r.
Proof.
  intros HR Hpre.
  destruct (Rep_counts _ _ HR) as (Hcnt & Hmin & Hlt).
  destruct op as [e margin|e|]; simpl in Hpre; unfold exec, abs_exec.
  - destruct Hpre as [Hv Hcap].
    replace (m_end (m_eQueue (me s)) + 1 - Z.of_nat (length l))
      with (m_nFree (m_eQueue (me s))) by lia.
    destruct (Z.ltb_spec (to_ctr margin) (m_nFree (m_eQueue (me s)))) as [Hlt'|Hge].
    + destruct (post__success e margin s l HR Hv Hlt')
        as (s' & Hp & HR' & Hn & Hm & Hend & _ & Hprio).
      exists (RPost true), s'. rewrite Hp. cbn [bind].
      split; [reflexivity|]. split; [|split; [|split; [|split]]]; try assumption.
      * rewrite Hm, Hn. reflexivity.
      * rewrite length_app. simpl. lia.
    + assert (margin ≠ 0).
      { intros ->. rewrite to_ctr_0 in Hge. specialize (Hcap eq_refl). lia. }
      rewrite post__refuse by (assumption || apply Hv).
      cbn [bind]. eexists _, _. split; [reflexivity|]. cbn [me].
      split; [|split; [|split; [|split]]]; try assumption; try reflexivity.
      * lia.
      * simpl. lia.
  - destruct Hpre as [Hv Hn0].
    destruct (postLIFO_success e s l HR Hv Hn0)
      as (s' & Hp & HR' & Hn & Hm & Hend & _ & Hprio).
    exists RPostLIFO, s'. rewrite Hp. cbn [bind].
    split; [reflexivity|]. split; [|split; [|split; [|split]]]; try assumption.
    + rewrite Hm, Hn. reflexivity.
    + simpl length. simpl res_delta. lia.
  - destruct l as [|x l].
    { exfalso. apply Hpre. now apply (Rep_front_null _ _ HR). }
    destruct (get__success s x l HR) as (s' & Hp & HR' & Hn & Hm & Hend & _ & Hprio).
    exists (RGet x), s'. rewrite Hp. cbn [bind].
    split; [reflexivity|]. split; [|split; [|split; [|split]]]; try assumption.
    + rewrite Hm, Hn. lia.
    + simpl length. simpl res_delta. lia.
Qed.

Lemma list_min_le x l : list_min x l <= x.
Proof.
  revert x. induction l as [|y l IH]; intros x; unfold list_min in *; simpl; [lia|].
  specialize (IH (Z.min x y)). lia.
Qed.

Lemma list_min_spec x l :
  In (list_min x l) (x :: l) ∧ Forall (fun v => list_min x l <= v) (x :: l).
Proof.
  revert x. induction l as [|y l IH]; intros x; unfold list_min in *; simpl.
  - split; [auto | constructor; [lia | constructor]].
  - destruct (IH (Z.min x y)) as [Hin Hall].
    apply Forall_cons in Hall as [Hm Hall]. split.
    + destruct Hin as [Hin|Hin]; [|auto].
      rewrite <- Hin.
      destruct (Z.min_spec x y) as [[_ Hxy]|[_ Hxy]]; rewrite Hxy; auto.
    + constructor; [lia|]. constructor; [lia | assumption].
Qed.

Lemma list_min_absorb x y l : x <= y → list_min x (y :: l) = list_min x l.
Proof. intros H. unfold list_min. simpl. now rewrite Z.min_l. Qed.

Lemma run_invariant ops : ∀ s l,
  Rep (m_eQueue (me s)) l → respects ops s →
  ∃ rs s', run ops s = Ok (rs, s') ∧
           Rep (m_eQueue (me s')) (abs_held (m_end (m_eQueue (me s))) ops l) ∧
           m_end (m_eQueue (me s')) = m_end (m_eQueue (me s)) ∧
           m_nMin (m_eQueue (me s')) =
             list_min (m_nMin (m_eQueue (me s))) (nFree_history ops s) ∧
           m_prio (me s') = m_prio (me s) ∧
           Z.of_nat (length (abs_held (m_end (m_eQueue (me s))) ops l)) =
             Z.of_nat (length l) + held_count rs.
Proof.
  induction ops as [|op ops IH]; intros s l HR Hres.
  - exists [], s. simpl.
    split; [reflexivity|].
    split; [|split; [|split; [|split]]]; try assumption; try reflexivity; [|lia].
    destruct (Rep_counts _ _ HR) as (_ & Hmin & _).
    unfold list_min. simpl. lia.
  - destruct Hres as [Hpre Hres]. simpl nFree_history.
    destruct (exec_step op s l HR Hpre)
      as (r & s1 & Hex & HR1 & Hend & Hmin1 & Hprio & Hlen1).
    simpl run. rewrite Hex in *. cbn [bind].
    destruct (IH s1 _ HR1 Hres)
      as (rs & s2 & Hrun & HR2 & Hend2 & Hmin2 & Hprio2 & Hlen2).
    exists (r :: rs), s2. rewrite Hrun. cbn [bind].
    split; [reflexivity|]. split; [|split; [|split; [|split]]];
      [| | | |simpl; rewrite Hend in Hlen2; unfold abs_held in *; simpl; lia].
    + simpl. unfold abs_held in HR2. now rewrite Hend in HR2.
    + congruence.
    + destruct (Rep_counts _ _ HR) as (_ & Hmin & _).
      rewrite Hmin2, Hmin1.
      rewrite list_min_absorb by lia.
      destruct ops as [|op' ops']; simpl.
      * unfold list_min; simpl. lia.
      * unfold list_min; simpl. f_equal.
        destruct (exec op' s1) as [[? ?]| | |]; simpl; lia.
    + congruence.
Qed.

Lemma init_Rep qSto qLen :
  0 <= qLen → qLen + 1 < 2 ^ ctr_bits → Z.of_nat (length qSto) = qLen →
  Rep (QEQueue_init qSto qLen) [] ∧
  m_end (QEQueue_init qSto qLen) = qLen ∧
  m_nFree (QEQueue_init qSto qLen) = qLen + 1 ∧
  m_nMin (QEQueue_init qSto qLen) = qLen + 1.
Proof.
  intros H0 Hw Hlen. unfold QEQueue_init. rewrite to_ctr_0.
  rewrite (to_ctr_small qLen), (to_ctr_small (qLen + 1)) by lia.
  split; [|auto]. unfold Rep; simpl.
  repeat split; try assumption; try lia.
  - constructor.
  - apply ring_slots_nil.
Qed.

Lemma respects_app a : ∀ b s,
  respects (a ++ b) s →
  respects a s ∧
  ∀ rs s1, run a s = Ok (rs, s1) → respects b s1.
Proof.
  induction a as [|op a IH]; intros b s H; simpl in *.
  - split; [exact I|]. intros rs s1 Hr. now injection Hr as <- <-.
  - destruct H as [Hpre H].
    destruct (exec op s) as [[r s']| | |]; cbn [bind];
      try (split; [auto | discriminate]).
    destruct (IH b s' H) as [Ha Hb]. split; [auto|].
    intros rs s1 Hr.
    destruct (run a s') as [[rs' s1']| | |] eqn:Hrun; cbn [bind] in Hr; try discriminate.
    injection Hr as <- <-. now apply (Hb rs').
Qed.

Lemma nFree_history_app a : ∀ b s rs s1,
  run a s = Ok (rs, s1) →
  nFree_history (a ++ b) s = removelast (nFree_history a s) ++ nFree_history b s1.
Proof.
  induction a as [|op a IH]; intros b s rs s1 Hr; simpl in Hr.
  - injection Hr as <- <-. reflexivity.
  - destruct (exec op s) as [[r s']| | |] eqn:Hex; cbn [bind] in Hr; try discriminate.
    destruct (run a s') as [[rs' s1']| | |] eqn:Hrun; cbn [bind] in Hr; try discriminate.
    injection Hr as <- <-.
    simpl. rewrite Hex. rewrite (IH b s' rs' s1' Hrun).
    destruct a as [|op' a']; simpl; [reflexivity|].
    destruct (exec op' s') as [[? ?]| | |]; reflexivity.
Qed.

(** Posting with room to spare appends to the queue. *)
Lemma posts_all ps : ∀ s l,
  Rep (m_eQueue (me s)) l →
  Forall (fun p => valid_evt (evts s) (fst p)) ps →
  capacity_for (m_nFree (m_eQueue (me s))) ps →
  ∃ s', run (posts ps) s = Ok (map (fun _ => RPost true) ps, s') ∧
        Rep (m_eQueue (me s')) (l ++ map fst ps).
Proof.
  induction ps as [|[e m] ps IH]; intros s l HR Hv Hc; simpl.
  - exists s. rewrite app_nil_r. auto.
  - apply Forall_cons in Hv as [Hve Hv]. destruct Hc as [Hm Hc]. simpl in Hve, Hm.
    destruct (post__success e m s l HR Hve Hm)
      as (s1 & Hp & HR1 & Hn & _ & _ & Heff & _).
    rewrite Hp. cbn [bind].
    destruct (IH s1 (l ++ [e]) HR1) as (s' & Hrun & HR').
    + eapply Forall_impl; [exact Hv|]. intros p Hp'. simpl.
      eapply enqueue_effect_valid; eassumption.
    + now rewrite Hn.
    + exists s'. rewrite Hrun. cbn [bind]. split; [reflexivity|].
      now rewrite <- app_assoc in HR'.
Qed.

(** Taking as many events as the queue holds returns them oldest first. *)
Lemma gets_all l : ∀ s,
  Rep (m_eQueue (me s)) l →
  ∃ s', run (repeat OpGet (length l)) s = Ok (map RGet l, s') ∧
        Rep (m_eQueue (me s')) [].
Proof.
  induction l as [|x l IH]; intros s HR; simpl.
  - exists s. auto.
  - destruct (get__success s x l HR) as (s1 & Hg & HR1 & _).
    rewrite Hg. cbn [bind].
    destruct (IH s1 HR1) as (s' & Hrun & HR').
    exists s'. rewrite Hrun. cbn [bind]. auto.
Qed.

(** ** Assertions of the posting functions *)

Lemma post__null margin s : post_ 0 margin s = AssertFail 100.
Proof. reflexivity. Qed.

Lemma post__fatal e s :
  e ≠ 0 → m_nFree (m_eQueue (me s)) <= 0 → post_ e 0 s = AssertFail 110.
Proof.
  intros Hne Hn. unfold post_. rewrite to_ctr_0.
  destruct (Z.eqb_spec e 0) as [?|_]; [contradiction|].
  destruct (Z.ltb_spec 0 (m_nFree (m_eQueue (me s)))) as [?|_]; [lia|].
  reflexivity.
Qed.

Lemma post__branch e margin s b s' :
  post_ e margin s = Ok (b, s') →
  e ≠ 0 ∧ b = (to_ctr margin <? m_nFree (m_eQueue (me s))) ∧
  (b = false → margin ≠ 0 ∧
               s' = mkAOState (me s) (gc e (evts s)) (port_log s ++ [GC e])) ∧
  (b = true → ∃ ev, evts s !! e = Some ev ∧
                    evts s' = if negb (poolId_ ev =? u8 0)
                              then QF_EVT_REF_CTR_INC_ e ev (evts s)
                              else evts s).
Proof.
  intros H. destruct (Z.eqb_spec e 0) as [->|Hne].
  { rewrite post__null in H. discriminate. }
  split; [assumption|].
  destruct (Z.ltb_spec (to_ctr margin) (m_nFree (m_eQueue (me s)))) as [Hlt|Hge].
  - destruct (evts s !! e) as [ev|] eqn:Hev.
    + destruct s as [[[front ring en head tail nFree nMin] prio] h log].
      cbn [me evts m_eQueue port_log m_nFree] in *.
      rewrite (post__accept _ _ _ _ _ _ _ _ _ _ _ _ ev) in H by assumption.
      cbv zeta in H.
      destruct (front =? 0);
        [|destruct ((0 <=? head) && (head <? Z.of_nat (length ring)))];
        try discriminate; injection H as <- <-;
        (split; [reflexivity|]; split; [discriminate|]; intros _;
         exists ev; split; reflexivity).
    + unfold post_, deref in H.
      destruct (Z.eqb_spec e 0) as [?|_]; [contradiction|].
      destruct (Z.ltb_spec (to_ctr margin) (m_nFree (m_eQueue (me s)))) as [_|?]; [|lia].
      rewrite Hev in H. discriminate.
  - unfold post_ in H.
    destruct (Z.eqb_spec e 0) as [?|_]; [contradiction|].
    destruct (Z.ltb_spec (to_ctr margin) (m_nFree (m_eQueue (me s)))) as [?|_]; [lia|].
    destruct (Z.eqb_spec margin 0) as [?|Hm]; [discriminate|].
    injection H as <- <-.
    split; [reflexivity|]. split; [auto|discriminate].
Qed.

Lemma postLIFO_branch e s s' :
  postLIFO e s = Ok (tt, s') →
  m_nFree (m_eQueue (me s)) ≠ 0 ∧
  ∃ ev, evts s !! e = Some ev ∧
        evts s' = if negb (poolId_ ev =? u8 0)
                  then QF_EVT_REF_CTR_INC_ e ev (evts s)
                  else evts s.
Proof using ctr_bits.
  intros H.
  destruct (Z.eqb_spec (m_nFree (m_eQueue (me s))) 0) as [Hz|Hnz].
  { unfold postLIFO in H. rewrite to_ctr_0, Hz in H. discriminate. }
  split; [assumption|].
  destruct (Z.eqb_spec e 0) as [->|Hne].
  { unfold postLIFO, deref in H. rewrite to_ctr_0 in H.
    destruct (Z.eqb_spec (m_nFree (m_eQueue (me s))) 0); [contradiction|discriminate]. }
  destruct (evts s !! e) as [ev|] eqn:Hev.
  - destruct s as [[[front ring en head tail nFree nMin] prio] h log].
    cbn [me evts m_eQueue port_log m_nFree] in *.
    rewrite (postLIFO_accept _ _ _ _ _ _ _ _ _ _ _ ev) in H by assumption.
    cbv zeta in H. exists ev. split; [reflexivity|].
    destruct (front =? 0); [now injection H as <-|].
    match type of H with
    | context [(0 <=? ?t) && (?t <? ?n)] => destruct ((0 <=? t) && (t <? n))
    end; [now injection H as <-|discriminate].
  - unfold postLIFO, deref in H. rewrite to_ctr_0 in H.
    destruct (Z.eqb_spec (m_nFree (m_eQueue (me s))) 0); [contradiction|].
    destruct (Z.eqb_spec e 0); [contradiction|].
    rewrite Hev in H. discriminate.
Qed.

(** What a successful [post_] does to the queue, whatever the state. *)
Lemma post__effect e margin s s' :
  post_ e margin s = Ok (true, s') →
  m_nFree (m_eQueue (me s')) = to_ctr (m_nFree (m_eQueue (me s)) - 1) ∧
  fifo_stored e (m_eQueue (me s)) (m_eQueue (me s')).
Proof.
  intros H. destruct (post__branch _ _ _ _ _ H) as (Hne & Hb & _ & Ht).
  destruct (Ht eq_refl) as (ev & Hev & _).
  symmetry in Hb. apply Z.ltb_lt in Hb.
  destruct s as [[[front ring en head tail nFree nMin] prio] h log].
  cbn [me evts m_eQueue port_log m_nFree] in *.
  rewrite (post__accept _ _ _ _ _ _ _ _ _ _ _ _ ev) in H by assumption.
  cbv zeta in H. unfold fifo_stored. cbn [m_frontEvt m_head m_ring m_end m_tail].
  destruct (front =? 0).
  - injection H as <-. cbn. repeat split.
  - destruct ((0 <=? head) && (head <? Z.of_nat (length ring)));
      [|discriminate].
    injection H as <-. cbn. repeat split.
Qed.

(** ** Properties of the queue stated by the documentation *)

(** The comparison that [post_] makes.  For every queue state and every
    margin, [post_] returns [true] exactly when the number of free slots
    read at entry is strictly greater than the margin after the cast
    [static_cast<QEQueueCtr>(margin)]; on success [m_nFree] is
    decremented by exactly one and the event is stored in the front slot
    of an empty queue, otherwise in [ring[head]], followed by "wrap, then
    decrement" of the head.  The cast changes nothing for a margin that
    is a value of the counter type, so there [post_] compares with the
    margin itself, as its documentation says; for a larger margin it
    compares with the margin's low bits only.  On a well-formed queue and
    for a live event, [post_] does return whenever the margin is nonzero
    or there is room. *)
Theorem post__accepts_iff_room s e margin :
  (∀ b s', post_ e margin s = Ok (b, s') →
     (b = true ↔ to_ctr margin < m_nFree (m_eQueue (me s))) ∧
     (b = true →
      fifo_stored e (m_eQueue (me s)) (m_eQueue (me s')) ∧
      m_nFree (m_eQueue (me s')) = to_ctr (m_nFree (m_eQueue (me s)) - 1) ∧
      (0 <= m_nFree (m_eQueue (me s)) < 2 ^ ctr_bits →
       m_nFree (m_eQueue (me s')) = m_nFree (m_eQueue (me s)) - 1))) ∧
  (0 <= margin < 2 ^ ctr_bits → to_ctr margin = margin) ∧
  (∀ l, Rep (m_eQueue (me s)) l → valid_evt (evts s) e →
        margin ≠ 0 ∨ to_ctr margin < m_nFree (m_eQueue (me s)) →
        ∃ b s', post_ e margin s = Ok (b, s')).
Proof.
  split; [|split].
  - intros b s' Hp.
    destruct (post__branch _ _ _ _ _ Hp) as (_ & Hb & _). split.
    + rewrite Hb. apply Z.ltb_lt.
    + intros ->. destruct (post__effect _ _ _ _ Hp) as [Hn Hst].
      split; [assumption|]. split; [assumption|].
      intros Hrange. rewrite Hn. apply to_ctr_small.
      symmetry in Hb. apply Z.ltb_lt in Hb.
      assert (0 < 2 ^ ctr_bits) as Hpow by lia.
      pose proof (to_ctr_nonneg margin Hpow). lia.
  - apply to_ctr_small.
  - intros l HR Hv Hroom.
    destruct (Z_lt_le_dec (to_ctr margin) (m_nFree (m_eQueue (me s)))) as [Hlt|Hge].
    + destruct (post__success e margin s l HR Hv Hlt) as (s' & Hp & _). eauto.
    + destruct Hroom as [Hm|?]; [|lia].
      rewrite post__refuse by (assumption || apply Hv). eauto.
Qed.

(** Claim C2.  From a freshly constructed queue, at every point of a
    sequence of [post_], [postLIFO] and [get_] calls that respects the
    preconditions (after any prefix [ops] of it), the operations have all
    returned, [m_nFree] plus the number of events held equals
    [m_end + 1], and [m_nFree = m_end + 1] holds exactly when
    [m_frontEvt] is null. *)
Theorem queue_accounting prio qSto qLen h ops rest :
  0 <= qLen → qLen + 1 < 2 ^ ctr_bits → Z.of_nat (length qSto) = qLen →
  respects (ops ++ rest) (AO_init prio qSto qLen h) →
  ∃ rs s', run ops (AO_init prio qSto qLen h) = Ok (rs, s') ∧
           Rep (m_eQueue (me s')) (abs_held qLen ops []) ∧
           held_count rs = Z.of_nat (length (abs_held qLen ops [])) ∧
           m_nFree (m_eQueue (me s')) + held_count rs
             = m_end (m_eQueue (me s')) + 1 ∧
           (m_nFree (m_eQueue (me s')) = m_end (m_eQueue (me s')) + 1
            ↔ m_frontEvt (m_eQueue (me s')) = 0).
Proof.
  intros H0 Hw Hlen Hres.
  destruct (init_Rep qSto qLen H0 Hw Hlen) as (HR & Hend & _).
  destruct (respects_app _ _ _ Hres) as [Hops _].
  destruct (run_invariant ops (AO_init prio qSto qLen h) [] HR Hops)
    as (rs & s' & Hrun & HR' & _ & _ & _ & Hcount).
  cbn [AO_init me m_eQueue] in HR', Hcount. rewrite Hend in HR', Hcount.
  simpl in Hcount.
  exists rs, s'. split; [assumption|]. split; [assumption|].
  destruct (Rep_counts _ _ HR') as (Hcnt & _).
  pose proof (Rep_front_null _ _ HR') as Hfn.
  split; [lia|]. split; [lia|]. rewrite Hfn.
  destruct (abs_held qLen ops []) as [|x l'] eqn:Hl; simpl in Hcnt.
  - split; [reflexivity | lia].
  - split; [lia | discriminate].
Qed.

(** Claim C3, amended.  Events posted with [post_] to a queue that has
    room for each of them all succeed, and the following calls of [get_]
    first return the events the queue already held, oldest first, and
    then the posted events in exactly the posting order; posted to an
    empty queue, these are the next calls. *)
Theorem fifo_order s l ps :
  Rep (m_eQueue (me s)) l →
  Forall (fun p => valid_evt (evts s) (fst p)) ps →
  capacity_for (m_nFree (m_eQueue (me s))) ps →
  ∃ s1, run (posts ps) s = Ok (map (fun _ => RPost true) ps, s1) ∧
  ∃ s2, run (repeat OpGet (length l + length ps)) s1
        = Ok (map RGet (l ++ map fst ps), s2).
Proof.
  intros HR Hv Hc.
  destruct (posts_all ps s l HR Hv Hc) as (s1 & Hrun & HR1).
  exists s1. split; [assumption|].
  destruct (gets_all _ s1 HR1) as (s2 & Hg & _).
  rewrite length_app, length_map in Hg. eauto.
Qed.

(** Claim C4.  On a well-formed queue with a free slot, [postLIFO e] of a
    live event returns and the next [get_] returns [e]; when the queue
    held [e1] in the front slot and [e2] in the ring, the next three
    calls of [get_] return [e], [e1], [e2] in that order. *)
Theorem lifo_order s l e :
  Rep (m_eQueue (me s)) l → valid_evt (evts s) e →
  m_nFree (m_eQueue (me s)) ≠ 0 →
  ∃ s1, postLIFO e s = Ok (tt, s1) ∧
        (∃ s2, get_ s1 = Ok (e, s2)) ∧
        ∀ e1 e2, l = [e1; e2] →
          ∃ s2, run [OpGet; OpGet; OpGet] s1
                = Ok ([RGet e; RGet e1; RGet e2], s2).
Proof.
  intros HR Hv Hn.
  destruct (postLIFO_success e s l HR Hv Hn) as (s1 & Hp & HR1 & _).
  exists s1. split; [assumption|]. split.
  - destruct (get__success s1 e l HR1) as (s2 & Hg & _). eauto.
  - intros e1 e2 ->. destruct (gets_all _ s1 HR1) as (s2 & Hg & _). eauto.
Qed.

(** The refusing branch of [post_].  When [post_] is called for a
    non-null event with a margin greater than zero while the number of
    free slots read at entry is at most the margin after the cast
    [static_cast<QEQueueCtr>(margin)], it returns [false], calls [QF::gc]
    on the event, and leaves the active object with its whole queue
    unchanged.  The cast changes nothing for a margin that is a value of
    the counter type. *)
Theorem post__back_pressure s e margin :
  e ≠ 0 → 0 < margin →
  m_nFree (m_eQueue (me s)) <= to_ctr margin →
  (∃ s', post_ e margin s = Ok (false, s') ∧
         me s' = me s ∧
         port_log s' = port_log s ++ [GC e] ∧
         evts s' = gc e (evts s)) ∧
  (margin < 2 ^ ctr_bits → to_ctr margin = margin).
Proof.
  intros Hne Hm Hn. split.
  - rewrite post__refuse by (assumption || lia). eexists. eauto.
  - intros Hlt. apply to_ctr_small. lia.
Qed.

(** Claim C6.  Overflow is fatal, not silent: [post_] with margin zero
    fails an assertion when no slot is free and never returns [false];
    [postLIFO] fails assertion 210 when no slot is free; and with a free
    slot neither [postLIFO] nor a margin-zero [post_] of a non-null event
    fails any assertion. *)
Theorem overflow_is_fatal s e :
  (m_nFree (m_eQueue (me s)) <= 0 → ∃ id, post_ e 0 s = AssertFail id) ∧
  (∀ s', post_ e 0 s ≠ Ok (false, s')) ∧
  (m_nFree (m_eQueue (me s)) = 0 → postLIFO e s = AssertFail 210) ∧
  (e ≠ 0 → 0 < m_nFree (m_eQueue (me s)) →
   ∀ id, post_ e 0 s ≠ AssertFail id) ∧
  (m_nFree (m_eQueue (me s)) ≠ 0 → ∀ id, postLIFO e s ≠ AssertFail id).
Proof.
  split; [|split; [|split; [|split]]].
  - intros Hn. destruct (Z.eqb_spec e 0) as [->|Hne].
    + exists 100. apply post__null.
    + exists 110. now apply post__fatal.
  - intros s' Hp. destruct (post__branch _ _ _ _ _ Hp) as (_ & _ & Hf & _).
    destruct (Hf eq_refl) as [Hm _]. now apply Hm.
  - intros Hn. unfold postLIFO. now rewrite to_ctr_0, Hn.
  - intros Hne Hn id. unfold post_, deref. rewrite to_ctr_0.
    destruct (Z.eqb_spec e 0) as [?|_]; [contradiction|].
    destruct (Z.ltb_spec 0 (m_nFree (m_eQueue (me s)))) as [_|?]; [|lia].
    destruct (evts s !! e) as [ev|]; cbn [bind]; [|discriminate].
    match goal with |- context [if ?c then _ else _] => destruct c end;
      [discriminate|].
    unfold ring_store.
    match goal with |- context [if ?c then _ else _] => destruct c end;
      cbn [bind]; discriminate.
  - intros Hn id. unfold postLIFO, deref. rewrite to_ctr_0.
    destruct (Z.eqb_spec (m_nFree (m_eQueue (me s))) 0) as [?|_]; [contradiction|].
    destruct (e =? 0); cbn [bind]; [discriminate|].
    destruct (evts s !! e) as [ev|]; cbn [bind]; [|discriminate].
    match goal with |- context [if ?c then _ else _] => destruct c end;
      [discriminate|].
    unfold ring_store.
    match goal with |- context [if ?c then _ else _] => destruct c end;
      cbn [bind]; discriminate.
Qed.

Lemma nFree_history_hd ops s :
  ∃ t, nFree_history ops s = m_nFree (m_eQueue (me s)) :: t.
Proof. destruct ops; simpl; eauto. Qed.

(** Claim C8.  From a freshly constructed queue, at every point of a
    sequence of queue operations that respects the preconditions,
    [m_nMin] is the minimum of all the values [m_nFree] has held since
    construction, so [m_nMin <= m_nFree]; [m_nMin] never increases
    afterwards; and [QF::getQueueMin(prio)], for a priority whose slot
    of [active_] points to the active object, returns exactly this
    [m_nMin] and leaves the table as it is.  The counter type is assumed
    to be no wider than [uint_fast16_t], the return type. *)
Theorem min_tracking prio qSto qLen h ops rest :
  ctr_bits <= fast16_bits →
  0 <= qLen → qLen + 1 < 2 ^ ctr_bits → Z.of_nat (length qSto) = qLen →
  respects (ops ++ rest) (AO_init prio qSto qLen h) →
  ∃ rs s1 rs' s2,
    run ops (AO_init prio qSto qLen h) = Ok (rs, s1) ∧
    run rest s1 = Ok (rs', s2) ∧
    In (m_nMin (m_eQueue (me s1)))
       (nFree_history ops (AO_init prio qSto qLen h)) ∧
    Forall (fun v => m_nMin (m_eQueue (me s1)) <= v)
           (nFree_history ops (AO_init prio qSto qLen h)) ∧
    m_nMin (m_eQueue (me s1)) <= m_nFree (m_eQueue (me s1)) ∧
    m_nMin (m_eQueue (me s2)) <= m_nMin (m_eQueue (me s1)) ∧
    ∀ active_ p,
      0 <= p <= QF_MAX_ACTIVE →
      active_ !! Z.to_nat p = Some (Some (me s1)) →
      getQueueMin p active_ = Ok (m_nMin (m_eQueue (me s1)), active_).
Proof.
  intros Hbits H0 Hw Hlen Hres.
  destruct (init_Rep qSto qLen H0 Hw Hlen) as (HR & _ & HnF & HnM).
  destruct (respects_app _ _ _ Hres) as [Hops Hrest].
  destruct (run_invariant ops (AO_init prio qSto qLen h) [] HR Hops)
    as (rs & s1 & Hrun & HR1 & _ & Hmin1 & _).
  specialize (Hrest rs s1 Hrun).
  destruct (run_invariant rest s1 _ HR1 Hrest)
    as (rs' & s2 & Hrun2 & _ & _ & Hmin2 & _).
  exists rs, s1, rs', s2. split; [assumption|]. split; [assumption|].
  destruct (Rep_counts _ _ HR1) as (_ & Hle & Hlt).
  destruct (nFree_history_hd ops (AO_init prio qSto qLen h)) as [t Ht].
  cbn [AO_init me m_eQueue] in Hmin1, Ht. rewrite HnM in Hmin1. rewrite HnF in Ht.
  cbn [AO_init]. rewrite Ht in *.
  rewrite list_min_absorb in Hmin1 by lia.
  destruct (list_min_spec (qLen + 1) t) as [Hin Hall].
  rewrite <- Hmin1 in Hin, Hall.
  split; [assumption|]. split; [assumption|]. split; [lia|]. split.
  - rewrite Hmin2. apply list_min_le.
  - intros active_ p Hp Hslot. unfold getQueueMin.
    destruct (Z.leb_spec p QF_MAX_ACTIVE) as [_|?]; [|lia].
    destruct (Z.ltb_spec p 0) as [?|_]; [lia|].
    rewrite Hslot. do 2 f_equal. unfold to_fast16, to_uint.
    apply Z.mod_small.
    assert (2 ^ ctr_bits <= 2 ^ fast16_bits) by (apply Z.pow_le_mono_r; lia).
    lia.
Qed.


(** ** Further properties of the queue *)

(** *** What each function leaves alone, whatever the state *)

Lemma post__frame e margin s b s' :
  post_ e margin s = Ok (b, s') →
  m_end (m_eQueue (me s')) = m_end (m_eQueue (me s)) ∧
  length (m_ring (m_eQueue (me s'))) = length (m_ring (m_eQueue (me s))) ∧
  m_prio (me s') = m_prio (me s) ∧
  port_log s' = port_log s ++ op_calls (OpPost e margin) (RPost b) s ∧
  (b = false → me s' = me s ∧ evts s' = gc e (evts s)) ∧
  (b = true → enqueue_effect e (evts s) (evts s')).
Proof.
  intros H. destruct (post__branch _ _ _ _ _ H) as (Hne & Hb & Hf & Ht).
  destruct b.
  - destruct (Ht eq_refl) as (ev & Hev & Hh).
    symmetry in Hb. apply Z.ltb_lt in Hb.
    assert (Heff : enqueue_effect e (evts s) (evts s'))
      by (rewrite Hh; now apply enqueue_effect_inc).
    clear Hh Hf Ht.
    destruct s as [[[front ring en head tail nFree nMin] prio] h log].
    cbn [me evts m_eQueue port_log m_nFree] in *.
    rewrite (post__accept _ _ _ _ _ _ _ _ _ _ _ _ ev) in H by assumption.
    cbv zeta in H. unfold op_calls. cbn [me m_eQueue m_frontEvt].
    destruct (front =? 0).
    + injection H as <-. cbn.
      split; [|split; [|split; [|split; [|split]]]];
        try reflexivity; [discriminate | intros _; assumption].
    + destruct ((0 <=? head) && (head <? Z.of_nat (length ring)));
        [|discriminate].
      injection H as <-. cbn. rewrite app_nil_r, length_insert.
      split; [|split; [|split; [|split; [|split]]]];
        try reflexivity; [discriminate | intros _; assumption].
  - destruct (Hf eq_refl) as [_ ->]. cbn.
    split; [|split; [|split; [|split; [|split]]]];
      try reflexivity; [intros _; split; reflexivity | discriminate].
Qed.

Lemma postLIFO_frame e s s' :
  postLIFO e s = Ok (tt, s') →
  m_end (m_eQueue (me s')) = m_end (m_eQueue (me s)) ∧
  length (m_ring (m_eQueue (me s'))) = length (m_ring (m_eQueue (me s))) ∧
  m_prio (me s') = m_prio (me s) ∧
  port_log s' = port_log s ++ op_calls (OpPostLIFO e) RPostLIFO s ∧
  enqueue_effect e (evts s) (evts s') ∧
  m_frontEvt (m_eQueue (me s')) = e ∧ e ≠ 0.
Proof using ctr_bits.
  intros H. destruct (postLIFO_branch _ _ _ H) as (Hn & ev & Hev & Hh).
  assert (Hne : e ≠ 0).
  { intros ->. unfold postLIFO, deref in H. rewrite to_ctr_0 in H.
    destruct (m_nFree (m_eQueue (me s)) =? 0); discriminate. }
  assert (Heff : enqueue_effect e (evts s) (evts s'))
    by (rewrite Hh; now apply enqueue_effect_inc).
  clear Hh.
  destruct s as [[[front ring en head tail nFree nMin] prio] h log].
  cbn [me evts m_eQueue port_log m_nFree] in H, Hn, Hev, Heff |- *.
  rewrite (postLIFO_accept _ _ _ _ _ _ _ _ _ _ _ ev) in H by assumption.
  cbv zeta in H. unfold op_calls. cbn [me m_eQueue m_frontEvt].
  destruct (front =? 0).
  - injection H as <-. cbn.
    split; [|split; [|split; [|split; [|split; [|split]]]]];
      try reflexivity; assumption.
  - match type of H with
    | context [(0 <=? ?t) && (?t <? ?n)] => destruct ((0 <=? t) && (t <? n))
    end; [|discriminate].
    injection H as <-. cbn. rewrite app_nil_r, length_insert.
    split; [|split; [|split; [|split; [|split; [|split]]]]];
      try reflexivity; assumption.
Qed.

Lemma get__frame s e s' :
  get_ s = Ok (e, s') →
  m_end (m_eQueue (me s')) = m_end (m_eQueue (me s)) ∧
  m_ring (m_eQueue (me s')) = m_ring (m_eQueue (me s)) ∧
  m_prio (me s') = m_prio (me s) ∧
  port_log s' = port_log s ++ op_calls OpGet (RGet e) s ∧
  evts s' = evts s ∧
  m_nMin (m_eQueue (me s')) = m_nMin (m_eQueue (me s)) ∧
  m_head (m_eQueue (me s')) = m_head (m_eQueue (me s)) ∧
  e = m_frontEvt (m_eQueue (me s)) ∧ e ≠ 0.
Proof using ctr_bits.
  intros H.
  destruct s as [[[front ring en head tail nFree nMin] prio] h log].
  cbn [me evts m_eQueue port_log m_nFree m_frontEvt m_end m_ring m_prio m_nMin m_head].
  assert (Hf : front ≠ 0).
  { intros ->. discriminate H. }
  rewrite get__nonempty in H by assumption. cbv zeta in H.
  unfold op_calls. cbn [me m_eQueue m_nFree m_end].
  destruct (to_ctr (nFree + to_ctr 1) <=? en).
  - destruct (tail <? 0); [discriminate|].
    destruct (ring !! Z.to_nat tail); [|discriminate].
    injection H as <- <-. cbn. rewrite app_nil_r.
    repeat split; assumption.
  - destruct (to_ctr (nFree + to_ctr 1) =? en + to_ctr 1); [|discriminate].
    injection H as <- <-. cbn. repeat split; assumption.
Qed.

Lemma exec_frame op s r s' :
  exec op s = Ok (r, s') →
  m_end (m_eQueue (me s')) = m_end (m_eQueue (me s)) ∧
  length (m_ring (m_eQueue (me s'))) = length (m_ring (m_eQueue (me s))) ∧
  m_prio (me s') = m_prio (me s) ∧
  port_log s' = port_log s ++ op_calls op r s.
Proof.
  intros H. destruct op as [e margin|e|]; unfold exec in H.
  - destruct (post_ e margin s) as [[b s1]| | |] eqn:Hp; try discriminate.
    cbn [bind] in H. injection H as <- <-.
    destruct (post__frame _ _ _ _ _ Hp) as (H1 & H2 & H3 & H4 & _). auto.
  - destruct (postLIFO e s) as [[[] s1]| | |] eqn:Hp; try discriminate.
    cbn [bind] in H. injection H as <- <-.
    destruct (postLIFO_frame _ _ _ Hp) as (H1 & H2 & H3 & H4 & _). auto.
  - destruct (get_ s) as [[e s1]| | |] eqn:Hp; try discriminate.
    cbn [bind] in H. injection H as <- <-.
    destruct (get__frame _ _ _ Hp) as (H1 & H2 & H3 & H4 & _).
    rewrite H2. auto.
Qed.

Lemma run_cons_inv op ops s rs s' :
  run (op :: ops) s = Ok (rs, s') →
  ∃ r s1 rs', exec op s = Ok (r, s1) ∧ run ops s1 = Ok (rs', s') ∧ rs = r :: rs'.
Proof.
  simpl. intros H.
  destruct (exec op s) as [[r s1]| | |]; cbn [bind] in H; try discriminate.
  destruct (run ops s1) as [[rs' s2]| | |] eqn:Hr; cbn [bind] in H; try discriminate.
  injection H as <- <-. eauto 6.
Qed.

(** X7.  Whatever the state, a sequence of queue operations that returns
    changes neither the capacity [m_end], nor the size of the ring
    buffer, nor the priority of the active object. *)
Theorem run_keeps_capacity ops : ∀ s rs s',
  run ops s = Ok (rs, s') →
  m_end (m_eQueue (me s')) = m_end (m_eQueue (me s)) ∧
  length (m_ring (m_eQueue (me s'))) = length (m_ring (m_eQueue (me s))) ∧
  m_prio (me s') = m_prio (me s).
Proof.
  induction ops as [|op ops IH]; intros s rs s' H.
  - injection H as <- <-. auto.
  - destruct (run_cons_inv _ _ _ _ _ H) as (r & s1 & rs' & Hex & Hrun & ->).
    destruct (exec_frame _ _ _ _ Hex) as (H1 & H2 & H3 & _).
    destruct (IH _ _ _ Hrun) as (H1' & H2' & H3').
    repeat split; congruence.
Qed.

Lemma gc_calls_app a b : gc_calls (a ++ b) = gc_calls a ++ gc_calls b.
Proof.
  induction a as [|[| |e] a IH]; simpl; [reflexivity | assumption | assumption |].
  now rewrite IH.
Qed.

(** X8.  Whatever the state, the events handed to [QF::gc] during a
    sequence of queue operations are exactly the events of the posts that
    returned [false], in the same order: no event that was accepted or
    delivered is ever recycled by the queue code. *)
Theorem gc_exactly_refused ops : ∀ s rs s',
  run ops s = Ok (rs, s') →
  gc_calls (port_log s') = gc_calls (port_log s) ++ refused ops rs.
Proof.
  induction ops as [|op ops IH]; intros s rs s' H.
  - injection H as <- <-. simpl. now rewrite app_nil_r.
  - destruct (run_cons_inv _ _ _ _ _ H) as (r & s1 & rs' & Hex & Hrun & ->).
    destruct (exec_frame _ _ _ _ Hex) as (_ & _ & _ & Hlog).
    rewrite (IH _ _ _ Hrun), Hlog, gc_calls_app, <- app_assoc. f_equal.
    assert (Hr : match op with
                 | OpPost _ _ => ∃ b, r = RPost b
                 | OpPostLIFO _ => r = RPostLIFO
                 | OpGet => ∃ e, r = RGet e
                 end).
    { destruct op; unfold exec in Hex.
      - destruct (post_ e margin s) as [[b ?]| | |]; try discriminate.
        injection Hex as <- _. eauto.
      - destruct (postLIFO e s) as [[? ?]| | |]; try discriminate.
        now injection Hex as <- _.
      - destruct (get_ s) as [[e ?]| | |]; try discriminate.
        injection Hex as <- _. eauto. }
    destruct op as [e margin|e|]; unfold op_calls.
    + destruct Hr as [[] ->]; simpl; [|reflexivity].
      now destruct (m_frontEvt (m_eQueue (me s)) =? 0).
    + subst r. simpl. now destruct (m_frontEvt (m_eQueue (me s)) =? 0).
    + destruct Hr as [e ->]. simpl.
      now destruct (to_ctr (m_nFree (m_eQueue (me s)) + to_ctr 1) <=? m_end (m_eQueue (me s))).
Qed.

(** *** The queue against the abstract queue, step by step *)

Lemma exec_step_res op s l r s' :
  Rep (m_eQueue (me s)) l → pre op s → exec op s = Ok (r, s') →
  r = abs_res (m_end (m_eQueue (me s))) op l ∧
  Rep (m_eQueue (me s')) (abs_exec (m_end (m_eQueue (me s))) op l).
Proof.
  intros HR Hpre Hex.
  destruct (exec_step op s l HR Hpre) as (r0 & s0 & Hex0 & HR0 & _).
  rewrite Hex in Hex0. injection Hex0 as <- <-. split; [|assumption].
  destruct (Rep_counts _ _ HR) as (Hcnt & _).
  destruct op as [e margin|e|]; unfold exec in Hex; unfold abs_res.
  - destruct (post_ e margin s) as [[b s1]| | |] eqn:Hp; try discriminate.
    cbn [bind] in Hex. injection Hex as <- _.
    destruct (post__branch _ _ _ _ _ Hp) as (_ & -> & _).
    do 2 f_equal. lia.
  - destruct (postLIFO e s) as [[? ?]| | |]; try discriminate.
    cbn [bind] in Hex. now injection Hex as <- _.
  - destruct l as [|x l].
    { exfalso. apply Hpre. now apply (Rep_front_null _ _ HR). }
    destruct (get__success s x l HR) as (s1 & Hg & _).
    rewrite Hg in Hex. cbn [bind] in Hex. now injection Hex as <- _.
Qed.

(** X9.  From any well-formed queue, a sequence of [post_], [postLIFO]
    and [get_] calls that respects the preconditions, in any
    interleaving, returns exactly what a double-ended list returns: a
    post is accepted when the free slots exceed its (converted) margin
    and then appends, a LIFO post prepends, and every [get_] returns the
    current head of the list. *)
Theorem run_refines_deque ops : ∀ s l,
  Rep (m_eQueue (me s)) l → respects ops s →
  ∃ s', run ops s = Ok (abs_results (m_end (m_eQueue (me s))) ops l, s') ∧
        Rep (m_eQueue (me s')) (abs_held (m_end (m_eQueue (me s))) ops l).
Proof.
  induction ops as [|op ops IH]; intros s l HR Hres.
  - exists s. auto.
  - destruct Hres as [Hpre Hres].
    destruct (exec_step op s l HR Hpre) as (r & s1 & Hex & _ & Hend & _).
    destruct (exec_step_res _ _ _ _ _ HR Hpre Hex) as [-> HR1].
    simpl. rewrite Hex in *. cbn [bind].
    destruct (IH s1 _ HR1 Hres) as (s' & Hrun & HR').
    exists s'. rewrite Hrun, Hend in *. cbn [bind]. auto.
Qed.

(** X10.  Nothing is lost and nothing is duplicated: after a sequence of
    operations on a well-formed queue that respects the preconditions,
    the events delivered by [get_] together with the events still queued
    are, up to order, the events queued at the start together with the
    events accepted since. *)
Theorem run_conserves_events ops : ∀ s l,
  Rep (m_eQueue (me s)) l → respects ops s →
  ∃ rs s' l', run ops s = Ok (rs, s') ∧
              Rep (m_eQueue (me s')) l' ∧
              delivered rs ++ l' ≡ₚ l ++ accepted ops rs.
Proof.
  induction ops as [|op ops IH]; intros s l HR Hres.
  - exists [], s, l. simpl. rewrite app_nil_r. auto.
  - destruct Hres as [Hpre Hres].
    destruct (exec_step op s l HR Hpre) as (r & s1 & Hex & _).
    destruct (exec_step_res _ _ _ _ _ HR Hpre Hex) as [Hr HR1].
    simpl run. rewrite Hex in *. cbn [bind].
    destruct (IH s1 _ HR1 Hres) as (rs & s' & l' & Hrun & HR' & Hperm).
    exists (r :: rs), s', l'. rewrite Hrun. cbn [bind].
    split; [reflexivity|]. split; [assumption|].
    destruct op as [e margin|e|]; simpl in Hr, Hperm; subst r.
    + destruct (to_ctr margin <? _); simpl.
      * rewrite Hperm, <- app_assoc. reflexivity.
      * assumption.
    + simpl. rewrite Hperm. simpl. apply Permutation_middle.
    + destruct l as [|x l].
      { exfalso. apply Hpre. now apply (Rep_front_null _ _ HR). }
      simpl in *. now rewrite Hperm.
Qed.

(** *** The queue signal *)

Lemma signal_balance_app a b :
  signal_balance (a ++ b) = signal_balance a + signal_balance b.
Proof.
  induction a as [|[| |e] a IH]; simpl; lia.
Qed.

Lemma exec_signal op s l r s' :
  Rep (m_eQueue (me s)) l → pre op s → exec op s = Ok (r, s') →
  signal_balance (op_calls op r s)
  = (if m_frontEvt (m_eQueue (me s')) =? 0 then 0 else 1)
    - (if m_frontEvt (m_eQueue (me s)) =? 0 then 0 else 1).
Proof.
  intros HR Hpre Hex.
  destruct (exec_step_res _ _ _ _ _ HR Hpre Hex) as [Hr HR1].
  pose proof (Rep_front_null _ _ HR) as Hfn.
  pose proof (Rep_front_null _ _ HR1) as Hfn1.
  destruct (Rep_counts _ _ HR) as (Hcnt & Hmin & Hlt).
  assert (Hnn : ∀ l0 (e : EvtPtr), l0 ++ [e] ≠ []) by (intros [|? ?] ?; discriminate).
  destruct op as [e margin|e|]; simpl in Hr, HR1, Hfn1; subst r; unfold op_calls.
  - destruct (to_ctr margin <? _) eqn:Hb.
    + destruct (Z.eqb_spec (m_frontEvt (m_eQueue (me s'))) 0) as [H0|_].
      { apply Hfn1 in H0. now apply Hnn in H0. }
      destruct (m_frontEvt (m_eQueue (me s)) =? 0); reflexivity.
    + unfold exec in Hex.
      destruct (post_ e margin s) as [[b s1]| | |] eqn:Hp; try discriminate.
      cbn [bind] in Hex. injection Hex as -> <-.
      destruct (post__branch _ _ _ _ _ Hp) as (_ & _ & Hf & _).
      destruct (Hf eq_refl) as [_ ->]. cbn. lia.
  - destruct (Z.eqb_spec (m_frontEvt (m_eQueue (me s'))) 0) as [H0|_].
    { apply Hfn1 in H0. discriminate. }
    destruct (m_frontEvt (m_eQueue (me s)) =? 0); reflexivity.
  - destruct l as [|x l].
    { exfalso. apply Hpre. now apply Hfn. }
    simpl in Hcnt, HR1, Hfn1.
    destruct (Z.eqb_spec (m_frontEvt (m_eQueue (me s))) 0) as [H0|_].
    { apply Hfn in H0. discriminate. }
    rewrite (to_ctr_small 1), (to_ctr_small (m_nFree (m_eQueue (me s)) + 1))
      by (destruct HR as (? & ? & _); lia).
    destruct (Z.leb_spec (m_nFree (m_eQueue (me s)) + 1) (m_end (m_eQueue (me s))));
      destruct (Z.eqb_spec (m_frontEvt (m_eQueue (me s'))) 0) as [H1|H1];
      try reflexivity.
    + apply Hfn1 in H1. subst l. simpl in Hcnt. lia.
    + exfalso. apply H1, Hfn1. destruct l; [reflexivity | simpl in Hcnt; lia].
Qed.

(** X11.  The queue signal is raised exactly once per transition from
    empty to non-empty and the empty notification is made exactly once
    per transition back: starting from a well-formed queue whose record
    of port calls agrees with its state, after any sequence of
    operations that respects the preconditions the signals raised minus
    the empty notifications made is 1 while the queue holds an event and
    0 while it is empty. *)
Theorem signal_tracks_nonempty ops : ∀ s l,
  Rep (m_eQueue (me s)) l → respects ops s →
  signal_balance (port_log s)
  = (if m_frontEvt (m_eQueue (me s)) =? 0 then 0 else 1) →
  ∃ rs s', run ops s = Ok (rs, s') ∧
           signal_balance (port_log s')
           = (if m_frontEvt (m_eQueue (me s')) =? 0 then 0 else 1).
Proof.
  induction ops as [|op ops IH]; intros s l HR Hres Hbal.
  - exists [], s. auto.
  - destruct Hres as [Hpre Hres].
    destruct (exec_step op s l HR Hpre) as (r & s1 & Hex & _).
    destruct (exec_step_res _ _ _ _ _ HR Hpre Hex) as [_ HR1].
    pose proof (exec_signal _ _ _ _ _ HR Hpre Hex) as Hsig.
    destruct (exec_frame _ _ _ _ Hex) as (_ & _ & _ & Hlog).
    simpl run. rewrite Hex in *. cbn [bind].
    destruct (IH s1 _ HR1 Hres) as (rs & s' & Hrun & Hbal').
    { rewrite Hlog, signal_balance_app, Hsig, Hbal. lia. }
    exists (r :: rs), s'. rewrite Hrun. cbn [bind]. auto.
Qed.

(** *** The margin *)

(** X12.  A post that is accepted leaves at least as many free slots as
    its margin asked for (the margin converted to the counter type): for
    every state whose [m_nFree] is a value of the counter type. *)
Theorem post__keeps_margin e margin s s' :
  0 <= m_nFree (m_eQueue (me s)) < 2 ^ ctr_bits →
  post_ e margin s = Ok (true, s') →
  to_ctr margin <= m_nFree (m_eQueue (me s')) ∧
  m_nFree (m_eQueue (me s')) < m_nFree (m_eQueue (me s)).
Proof.
  intros Hrange H.
  destruct (post__branch _ _ _ _ _ H) as (_ & Hb & _).
  symmetry in Hb. apply Z.ltb_lt in Hb.
  destruct (post__effect _ _ _ _ H) as [Hn _].
  assert (0 < 2 ^ ctr_bits) as Hpow by lia.
  pose proof (to_ctr_nonneg margin Hpow).
  rewrite Hn, (to_ctr_small (m_nFree (m_eQueue (me s)) - 1)) by lia. lia.
Qed.

(** *** Reference counts over a run *)

Lemma exec_evts op s r s' :
  exec op s = Ok (r, s') →
  match op, r with
  | OpPost e _, RPost false => evts s' = gc e (evts s)
  | OpPost e _, _ | OpPostLIFO e, _ => enqueue_effect e (evts s) (evts s')
  | OpGet, _ => evts s' = evts s
  end.
Proof.
  intros H. destruct op as [e margin|e|]; unfold exec in H.
  - destruct (post_ e margin s) as [[b s1]| | |] eqn:Hp; try discriminate.
    cbn [bind] in H. injection H as <- <-.
    destruct (post__frame _ _ _ _ _ Hp) as (_ & _ & _ & _ & Hf & Ht).
    destruct b; [now apply Ht | now apply Hf].
  - destruct (postLIFO e s) as [[[] s1]| | |] eqn:Hp; try discriminate.
    cbn [bind] in H. injection H as <- <-.
    now destruct (postLIFO_frame _ _ _ Hp) as (_ & _ & _ & _ & Heff & _).
  - destruct (get_ s) as [[e s1]| | |] eqn:Hp; try discriminate.
    cbn [bind] in H. injection H as <- <-.
    now destruct (get__frame _ _ _ Hp) as (_ & _ & _ & _ & Hev & _).
Qed.

Lemma occurrences_cons p e l :
  occurrences p (e :: l) = (if e =? p then 1 else 0) + occurrences p l.
Proof.
  unfold occurrences. rewrite filter_cons.
  destruct (Z.eqb_spec e p); destruct (decide (e = p)); try contradiction;
    simpl; lia.
Qed.

Lemma occurrences_nonneg p l : 0 <= occurrences p l.
Proof. unfold occurrences. lia. Qed.

Lemma counted_0 ev : counted 0 ev = ev.
Proof. unfold counted. simpl. rewrite orb_true_r. now destruct ev. Qed.

Lemma counted_succ n ev :
  0 <= n →
  counted n (mkQEvt (sig ev) (poolId_ ev)
                    (if negb (poolId_ ev =? 0) then u8 (refCtr_ ev + 1)
                     else refCtr_ ev))
  = counted (1 + n) ev.
Proof.
  intros Hn. unfold counted; simpl.
  destruct (poolId_ ev =? 0); simpl; [reflexivity|].
  destruct (Z.eqb_spec (1 + n) 0); [lia|]. f_equal.
  destruct (Z.eqb_spec n 0) as [->|_]; [reflexivity|].
  unfold u8, to_uint. rewrite Zplus_mod_idemp_l. f_equal. lia.
Qed.

(** X13.  Whatever the state, over a sequence of operations in which no
    post is refused, every event keeps its signal and pool id; the
    reference counter of a pool event is incremented (as a byte) once
    for each time the event was accepted into the queue, that of a
    static event stays as it was; [get_] changes no event; and no event
    appears or disappears. *)
Theorem run_counts_references ops : ∀ s rs s',
  run ops s = Ok (rs, s') → refused ops rs = [] →
  ∀ p, evts s' !! p
       = counted (occurrences p (accepted ops rs)) <$> evts s !! p.
Proof.
  induction ops as [|op ops IH]; intros s rs s' H Href p.
  - injection H as <- <-. simpl. unfold occurrences; simpl.
    destruct (evts s !! p) as [ev|]; simpl; [|reflexivity].
    now rewrite counted_0.
  - destruct (run_cons_inv _ _ _ _ _ H) as (r & s1 & rs' & Hex & Hrun & ->).
    pose proof (exec_evts _ _ _ _ Hex) as Hev.
    assert (Hshape : match op with
                     | OpPost _ _ => ∃ b, r = RPost b
                     | OpPostLIFO _ => r = RPostLIFO
                     | OpGet => ∃ e, r = RGet e
                     end).
    { destruct op; unfold exec in Hex.
      - destruct (post_ e margin s) as [[b ?]| | |]; try discriminate.
        injection Hex as <- _. eauto.
      - destruct (postLIFO e s) as [[? ?]| | |]; try discriminate.
        now injection Hex as <- _.
      - destruct (get_ s) as [[e ?]| | |]; try discriminate.
        injection Hex as <- _. eauto. }
    assert (Henq : ∀ e, enqueue_effect e (evts s) (evts s1) →
              refused ops rs' = [] →
              evts s' !! p
              = counted ((if e =? p then 1 else 0) + occurrences p (accepted ops rs'))
                  <$> evts s !! p).
    { intros e Heff Href'. rewrite (IH _ _ _ Hrun Href' p), (Heff p).
      destruct (evts s !! p) as [ev|]; simpl; [|reflexivity]. f_equal.
      pose proof (occurrences_nonneg p (accepted ops rs')).
      rewrite Z.eqb_sym.
      destruct (Z.eqb_spec e p) as [->|_]; simpl.
      - now apply counted_succ.
      - now destruct ev. }
    destruct op as [e margin|e|].
    + destruct Hshape as [[] ->]; simpl in Href, Hev; [|discriminate].
      simpl accepted. rewrite occurrences_cons. now apply Henq.
    + subst r. simpl in Href, Hev. simpl accepted.
      rewrite occurrences_cons. now apply Henq.
    + destruct Hshape as [e ->]. simpl in Href, Hev. simpl accepted.
      rewrite (IH _ _ _ Hrun Href p). now rewrite Hev.
Qed.

(** X14.  An event initialised with [QEVT_INITIALIZER] is static: a post
    that accepts it, FIFO or LIFO, writes nothing to the event storage. *)
Theorem static_event_untouched Q_SIGNAL_SIZE sig_ e s :
  evts s !! e = Some (QEVT_INITIALIZER Q_SIGNAL_SIZE sig_) →
  (∀ margin s', post_ e margin s = Ok (true, s') → evts s' = evts s) ∧
  (∀ s', postLIFO e s = Ok (tt, s') → evts s' = evts s).
Proof.
  intros Hev. split.
  - intros margin s' H.
    destruct (post__branch _ _ _ _ _ H) as (_ & _ & _ & Ht).
    destruct (Ht eq_refl) as (ev & Hev' & ->).
    rewrite Hev in Hev'. now injection Hev' as <-.
  - intros s' H.
    destruct (postLIFO_branch _ _ _ H) as (_ & ev & Hev' & ->).
    rewrite Hev in Hev'. now injection Hev' as <-.
Qed.

(** *** Bounds *)

(** X15.  From a well-formed queue, after any sequence of operations
    that respects the preconditions, the counters are within their
    bounds, [0 <= m_nMin <= m_nFree <= m_end + 1], the ring buffer has
    kept its [m_end] slots, and [m_head] and [m_tail] index inside it
    (whenever it has a slot at all). *)
Theorem run_keeps_bounds ops s l :
  Rep (m_eQueue (me s)) l → respects ops s →
  ∃ rs s', run ops s = Ok (rs, s') ∧
    0 <= m_nMin (m_eQueue (me s')) <= m_nFree (m_eQueue (me s')) ∧
    m_nFree (m_eQueue (me s')) <= m_end (m_eQueue (me s')) + 1 ∧
    m_nFree (m_eQueue (me s')) < 2 ^ ctr_bits ∧
    Z.of_nat (length (m_ring (m_eQueue (me s')))) = m_end (m_eQueue (me s')) ∧
    (0 < m_end (m_eQueue (me s')) →
     0 <= m_head (m_eQueue (me s')) < m_end (m_eQueue (me s')) ∧
     0 <= m_tail (m_eQueue (me s')) < m_end (m_eQueue (me s'))).
Proof.
  intros HR Hres.
  destruct (run_invariant ops s l HR Hres) as (rs & s' & Hrun & HR' & _).
  exists rs, s'. split; [assumption|].
  destruct HR' as (He & Hw & Hlen & Hh & Ht & Hht & Hmin & Hcnt & _).
  repeat split; try lia; try assumption; destruct (Hht ltac:(assumption)); lia.
Qed.

(** X16.  Whenever the table [active_] has its [QF_MAX_ACTIVE + 1]
    entries, [getQueueMin] never reads outside it: for every priority it
    either fails assertion 400, which happens exactly when the priority
    is above [QF_MAX_ACTIVE] or its entry is null, or returns the
    [m_nMin] of the active object registered at that priority, and it
    returns the table as it was. *)
Theorem getQueueMin_checks_priority prio (active_ : list (option QMActive)) :
  0 <= prio → 0 <= QF_MAX_ACTIVE →
  Z.of_nat (length active_) = QF_MAX_ACTIVE + 1 →
  (getQueueMin prio active_ = AssertFail 400 ↔
   QF_MAX_ACTIVE < prio ∨ active_ !! Z.to_nat prio = Some None) ∧
  (getQueueMin prio active_ = AssertFail 400 ∨
   ∃ a, active_ !! Z.to_nat prio = Some (Some a) ∧
        getQueueMin prio active_
        = Ok (to_fast16 (m_nMin (m_eQueue a)), active_)).
Proof.
  intros Hp Hmax Hlen. unfold getQueueMin.
  destruct (Z.leb_spec prio QF_MAX_ACTIVE) as [Hle|Hgt].
  - destruct (Z.ltb_spec prio 0) as [?|_]; [lia|].
    destruct (lookup_lt_is_Some_2 active_ (Z.to_nat prio)) as [o Ho]; [lia|].
    rewrite Ho. destruct o as [a|].
    + split; [|right; eauto].
      split; [discriminate | intros [?|?]; [lia | discriminate]].
    + split; [|left; reflexivity]. split; auto.
  - split; [|left; reflexivity]. split; auto.
Qed.

(** *** Capacity *)

Lemma run_end ops : ∀ s rs s',
  run ops s = Ok (rs, s') →
  m_end (m_eQueue (me s')) = m_end (m_eQueue (me s)).
Proof.
  induction ops as [|op ops IH]; intros s rs s' H.
  - now injection H as <- <-.
  - destruct (run_cons_inv _ _ _ _ _ H) as (r & s1 & rs' & Hex & Hrun & ->).
    destruct (exec_frame _ _ _ _ Hex) as (H1 & _).
    rewrite (IH _ _ _ Hrun). exact H1.
Qed.

Lemma capacity_for_margin_0 (es : list EvtPtr) : ∀ n,
  Z.of_nat (length es) <= n →
  capacity_for n (map (fun e => (e, 0)) es).
Proof.
  induction es as [|e es IH]; intros n Hn; simpl; [exact I|].
  simpl in Hn. rewrite to_ctr_0. split; [lia|]. apply IH. lia.
Qed.

(** X17.  A well-formed queue holds exactly [m_end + 1] events: when as
    many posts with margin 0 as there are free places are made, all are
    accepted, in order, and leave no free slot; after them a post with
    margin 0 fails assertion 110 and a post with a nonzero margin is
    refused. *)
Theorem queue_fills_to_capacity s l (es : list EvtPtr) :
  Rep (m_eQueue (me s)) l → Forall (valid_evt (evts s)) es →
  Z.of_nat (length l) + Z.of_nat (length es) = m_end (m_eQueue (me s)) + 1 →
  ∃ s1, run (posts (map (fun e => (e, 0)) es)) s
        = Ok (map (fun _ => RPost true) es, s1) ∧
        Rep (m_eQueue (me s1)) (l ++ es) ∧
        m_nFree (m_eQueue (me s1)) = 0 ∧
        (∀ e, e ≠ 0 → post_ e 0 s1 = AssertFail 110) ∧
        (∀ e margin, e ≠ 0 → margin ≠ 0 →
                     ∃ s', post_ e margin s1 = Ok (false, s')).
Proof.
  intros HR Hv Hk.
  destruct (Rep_counts _ _ HR) as (Hcnt0 & _).
  destruct (posts_all (map (fun e => (e, 0)) es) s l HR) as (s1 & Hrun & HRs).
  - apply Forall_map. simpl. exact Hv.
  - apply capacity_for_margin_0. lia.
  - rewrite map_map in Hrun, HRs. simpl in HRs. rewrite map_id in HRs.
    pose proof (run_end _ _ _ _ Hrun) as Hend'.
    destruct (Rep_counts _ _ HRs) as (Hcnt & _).
    rewrite length_app in Hcnt.
    assert (Hfull : m_nFree (m_eQueue (me s1)) = 0) by lia.
    exists s1. split; [assumption|]. split; [assumption|]. split; [assumption|].
    split.
    + intros e He. apply post__fatal; [assumption | lia].
    + intros e margin He Hm. rewrite post__refuse; [eauto | assumption ..|].
      rewrite Hfull. apply to_ctr_nonneg.
      destruct HRs as (? & ? & _). lia.
Qed.

End ActiveQueue.
(** ** Bit-level lemmas on 32-bit words *)


Lemma u32_small x : word32 x → u32 x = x.
Proof. unfold word32, u32, to_uint. intros H. apply Z.mod_small; lia. Qed.

Lemma u32_word x : word32 (u32 x).
Proof. unfold word32, u32, to_uint. apply Z.mod_pos_bound. lia. Qed.

Lemma bit_mask k : 0 <= k < 32 → u32 (Z.shiftl (u32 1) k) = 2 ^ k.
Proof.
  intros Hk. rewrite (u32_small 1) by (unfold word32; lia).
  rewrite Z.shiftl_1_l. apply u32_small. unfold word32. split; [lia|].
  apply Z.pow_lt_mono_r; lia.
Qed.

Lemma testbit_pow2 k i : 0 <= k → Z.testbit (2 ^ k) i = (i =? k).
Proof.
  intros Hk. destruct (Z.eqb_spec i k) as [->|Hne].
  - apply Z.pow2_bits_true; lia.
  - apply Z.pow2_bits_false; lia.
Qed.

Lemma testbit_word_high b i : word32 b → 32 <= i → Z.testbit b i = false.
Proof.
  intros Hb Hi. rewrite <- (u32_small b Hb). unfold u32, to_uint.
  apply Z.mod_pow2_bits_high. lia.
Qed.

Lemma land_pow2 b k :
  0 <= k → Z.land b (2 ^ k) = if Z.testbit b k then 2 ^ k else 0.
Proof.
  intros Hk. apply Z.bits_inj'. intros i Hi.
  rewrite Z.land_spec, testbit_pow2 by lia.
  destruct (Z.eqb_spec i k) as [->|Hne].
  - destruct (Z.testbit b k); simpl.
    + rewrite testbit_pow2 by lia. now rewrite Z.eqb_refl.
    + now rewrite Z.bits_0.
  - rewrite andb_false_r. destruct (Z.testbit b k).
    + rewrite testbit_pow2 by lia. symmetry. now apply Z.eqb_neq.
    + now rewrite Z.bits_0.
Qed.

Lemma has_bit b k :
  0 <= k < 32 →
  negb (Z.land b (u32 (Z.shiftl (u32 1) k)) =? u32 0) = Z.testbit b k.
Proof.
  intros Hk. rewrite bit_mask by lia. rewrite land_pow2 by lia.
  rewrite (u32_small 0) by (unfold word32; lia).
  destruct (Z.testbit b k); simpl; [|reflexivity].
  apply negb_true_iff, Z.eqb_neq. assert (0 < 2 ^ k) by (apply Z.pow_pos_nonneg; lia). lia.
Qed.

Lemma set_bit_word b k : word32 b → 0 <= k < 32 → word32 (Z.lor b (2 ^ k)).
Proof.
  intros Hb Hk. unfold word32 in *. split.
  - apply Z.lor_nonneg. split; [lia|]. apply Z.pow_nonneg; lia.
  - destruct (Z.eq_dec (Z.lor b (2 ^ k)) 0) as [->|Hnz]; [lia|].
    apply Z.log2_lt_pow2.
    + assert (0 <= Z.lor b (2 ^ k)) by (apply Z.lor_nonneg; split; [lia|apply Z.pow_nonneg; lia]). lia.
    + rewrite Z.log2_lor by (try lia; apply Z.pow_nonneg; lia).
      rewrite Z.log2_pow2 by lia.
      destruct (Z.eq_dec b 0) as [->|Hb0]; [simpl; lia|].
      assert (Z.log2 b < 32) by (apply Z.log2_lt_pow2; lia). lia.
Qed.

Lemma set_bit_spec b k i :
  0 <= k → Z.testbit (Z.lor b (2 ^ k)) i = Z.testbit b i || (i =? k).
Proof. intros Hk. now rewrite Z.lor_spec, testbit_pow2 by lia. Qed.

Lemma clear_mask_spec k i :
  0 <= k < 32 → 0 <= i < 32 →
  Z.testbit (u32 (Z.lnot (2 ^ k))) i = negb (i =? k).
Proof.
  intros Hk Hi. unfold u32, to_uint.
  rewrite Z.mod_pow2_bits_low by lia.
  rewrite Z.lnot_spec by lia. now rewrite testbit_pow2 by lia.
Qed.

Lemma clear_bit_word b m : word32 b → 0 <= m → word32 (Z.land b m).
Proof.
  intros Hb Hm. unfold word32 in *. split.
  - apply Z.land_nonneg. lia.
  - destruct (Z.eq_dec (Z.land b m) 0) as [->|Hnz]; [lia|].
    assert (0 <= Z.land b m) by (apply Z.land_nonneg; lia).
    apply Z.log2_lt_pow2; [lia|].
    assert (Z.log2 (Z.land b m) <= Z.min (Z.log2 b) (Z.log2 m))
      by (apply Z.log2_land; lia).
    destruct (Z.eq_dec b 0) as [->|Hb0]; [rewrite Z.land_0_l in Hnz; lia|].
    assert (Z.log2 b < 32) by (apply Z.log2_lt_pow2; lia). lia.
Qed.

(** ** One word as the representation of a slice of the set *)

Lemma word_rep_empty off : word_rep off (u32 0) ∅.
Proof.
  split; [apply u32_word|]. intros k Hk.
  rewrite (u32_small 0) by (unfold word32; lia). rewrite Z.bits_0.
  split; [discriminate | set_solver].
Qed.

Lemma word_rep_has off b S k :
  word_rep off b S → 0 <= k < 32 →
  negb (Z.land b (u32 (Z.shiftl (u32 1) k)) =? u32 0) = true ↔ off + k + 1 ∈ S.
Proof. intros [_ Hb] Hk. rewrite has_bit by lia. now apply Hb. Qed.

Lemma word_rep_insert off b S k :
  word_rep off b S → 0 <= k < 32 →
  word_rep off (Z.lor b (u32 (Z.shiftl (u32 1) k))) ({[ off + k + 1 ]} ∪ S).
Proof.
  intros [Hw Hb] Hk. rewrite bit_mask by lia. split.
  - now apply set_bit_word.
  - intros i Hi. rewrite set_bit_spec, orb_true_iff, Hb, Z.eqb_eq by lia.
    rewrite elem_of_union, elem_of_singleton. split.
    + intros [H|H]; [right; assumption | left; lia].
    + intros [H|H]; [right; lia | left; assumption].
Qed.

Lemma word_rep_remove off b S k :
  word_rep off b S → 0 <= k < 32 →
  word_rep off (Z.land b (u32 (Z.lnot (u32 (Z.shiftl (u32 1) k)))))
           (S ∖ {[ off + k + 1 ]}).
Proof.
  intros [Hw Hb] Hk. rewrite bit_mask by lia. split.
  - apply clear_bit_word; [assumption|]. apply u32_word.
  - intros i Hi.
    rewrite Z.land_spec, clear_mask_spec, andb_true_iff, Hb by lia.
    rewrite negb_true_iff, Z.eqb_neq, elem_of_difference, elem_of_singleton.
    split; intros [H1 H2]; split; auto; lia.
Qed.

Lemma word_rep_frame_insert off b S n :
  word_rep off b S → ¬ (off < n <= off + 32) → word_rep off b ({[ n ]} ∪ S).
Proof.
  intros [Hw Hb] Hn. split; [assumption|]. intros k Hk.
  rewrite Hb, elem_of_union, elem_of_singleton by lia.
  split; [auto | intros [H|H]; [lia | assumption]].
Qed.

Lemma word_rep_frame_remove off b S n :
  word_rep off b S → ¬ (off < n <= off + 32) → word_rep off b (S ∖ {[ n ]}).
Proof.
  intros [Hw Hb] Hn. split; [assumption|]. intros k Hk.
  rewrite Hb, elem_of_difference, elem_of_singleton by lia.
  split; [intros H; split; [assumption | lia] | now intros [H _]].
Qed.

(** A nonzero word: [QF_LOG2] names its highest element. *)
Lemma word_rep_log2 off b S :
  word_rep off b S → b ≠ 0 →
  off < QF_LOG2 b + off <= off + 32 ∧ QF_LOG2 b + off ∈ S ∧
  ∀ x, x ∈ S → off < x <= off + 32 → x <= QF_LOG2 b + off.
Proof.
  intros [Hw Hb] Hnz. unfold word32 in Hw. unfold QF_LOG2.
  destruct (Z.eqb_spec b 0) as [?|_]; [contradiction|].
  assert (Hl : 0 <= Z.log2 b < 32).
  { split; [apply Z.log2_nonneg | apply Z.log2_lt_pow2; lia]. }
  split; [lia|]. split.
  - replace (1 + Z.log2 b + off) with (off + Z.log2 b + 1) by lia.
    apply Hb; [lia|]. apply Z.bit_log2. lia.
  - intros x Hx Hr. destruct (Z_le_gt_dec x (1 + Z.log2 b + off)) as [?|Hgt]; [assumption|].
    exfalso. replace x with (off + (x - off - 1) + 1) in Hx by lia.
    apply Hb in Hx; [|lia].
    rewrite Z.bits_above_log2 in Hx by lia. discriminate.
Qed.

(** The zero word holds no element of its slice. *)
Lemma word_rep_zero off S x :
  word_rep off 0 S → x ∈ S → ¬ (off < x <= off + 32).
Proof.
  intros [_ Hb] Hx Hr. replace x with (off + (x - off - 1) + 1) in Hx by lia.
  apply Hb in Hx; [|lia]. rewrite Z.bits_0 in Hx. discriminate.
Qed.

(** ** The two variants preserve their representation invariant *)

Lemma rep32_step hi s S o :
  hi <= 32 → 1 <= op_elem o <= hi →
  rep32 hi s S → rep32 hi (step32 s o) (abs_step S o).
Proof.
  intros Hhi Ho [Hw HS]. destruct o as [n|n]; simpl in *; split.
  - unfold QPSet32.insert; simpl. rewrite (u32_small (u32 _)) by apply u32_word.
    replace n with (0 + (n - 1) + 1) at 2 by lia. apply word_rep_insert; [assumption | lia].
  - intros x. rewrite elem_of_union, elem_of_singleton. intros [->|Hx]; auto.
  - unfold QPSet32.remove; simpl. rewrite (u32_small (u32 _)) by apply u32_word.
    replace n with (0 + (n - 1) + 1) at 2 by lia. apply word_rep_remove; [assumption | lia].
  - intros x. rewrite elem_of_difference. intros [Hx _]; auto.
Qed.

Lemma rep64_step hi s S o :
  hi <= 64 → 1 <= op_elem o <= hi →
  rep64 hi s S → rep64 hi (step64 s o) (abs_step S o).
Proof.
  intros Hhi Ho (Hlo & Hhw & HS). destruct o as [n|n]; simpl in *.
  - unfold QPSet64.insert. destruct (Z.leb_spec n 32); simpl; (split; [|split]); simpl.
    + replace n with (0 + (n - 1) + 1) at 2 by lia. apply word_rep_insert; [assumption | lia].
    + apply word_rep_frame_insert; [assumption | lia].
    + intros x. rewrite elem_of_union, elem_of_singleton. intros [->|Hx]; auto.
    + apply word_rep_frame_insert; [assumption | lia].
    + replace n with (32 + (n - 33) + 1) at 2 by lia. apply word_rep_insert; [assumption | lia].
    + intros x. rewrite elem_of_union, elem_of_singleton. intros [->|Hx]; auto.
  - unfold QPSet64.remove. destruct (Z.leb_spec n 32); simpl; (split; [|split]); simpl.
    + replace n with (0 + (n - 1) + 1) at 2 by lia. apply word_rep_remove; [assumption | lia].
    + apply word_rep_frame_remove; [assumption | lia].
    + intros x. rewrite elem_of_difference. intros [Hx _]; auto.
    + apply word_rep_frame_remove; [assumption | lia].
    + replace n with (32 + (n - 33) + 1) at 2 by lia. apply word_rep_remove; [assumption | lia].
    + intros x. rewrite elem_of_difference. intros [Hx _]; auto.
Qed.

Lemma rep32_fold hi ops : ∀ s S,
  hi <= 32 → ops_in_range hi ops → rep32 hi s S →
  rep32 hi (fold_left step32 ops s) (fold_left abs_step ops S).
Proof.
  induction ops as [|o ops IH]; intros s S Hhi Hr Hrep; simpl; [assumption|].
  inversion Hr; subst. apply IH; [assumption .. |]. now apply rep32_step.
Qed.

Lemma rep64_fold hi ops : ∀ s S,
  hi <= 64 → ops_in_range hi ops → rep64 hi s S →
  rep64 hi (fold_left step64 ops s) (fold_left abs_step ops S).
Proof.
  induction ops as [|o ops IH]; intros s S Hhi Hr Hrep; simpl; [assumption|].
  inversion Hr; subst. apply IH; [assumption .. |]. now apply rep64_step.
Qed.

Lemma rep32_run hi ops :
  hi <= 32 → ops_in_range hi ops → rep32 hi (run32 ops) (abs_run ops).
Proof.
  intros Hhi Hr. apply rep32_fold; [assumption .. |]. split.
  - apply word_rep_empty.
  - set_solver.
Qed.

Lemma rep64_run hi ops :
  hi <= 64 → ops_in_range hi ops → rep64 hi (run64 ops) (abs_run ops).
Proof.
  intros Hhi Hr. apply rep64_fold; [assumption .. |].
  split; [|split]; simpl; try apply word_rep_empty. set_solver.
Qed.

Lemma rep32_has hi s S n :
  rep32 hi s S → 1 <= n <= 32 → QPSet32.hasElement s n = true ↔ n ∈ S.
Proof.
  intros [Hw _] Hn. unfold QPSet32.hasElement.
  rewrite (word_rep_has 0 _ S) by (assumption || lia).
  now replace (0 + (n - 1) + 1) with n by lia.
Qed.

Lemma rep64_has hi s S n :
  rep64 hi s S → 1 <= n <= 64 → QPSet64.hasElement s n = true ↔ n ∈ S.
Proof.
  intros (Hlo & Hhw & _) Hn. unfold QPSet64.hasElement.
  destruct (Z.leb_spec n 32).
  - rewrite (word_rep_has 0 _ S) by (assumption || lia).
    now replace (0 + (n - 1) + 1) with n by lia.
  - rewrite (word_rep_has 32 _ S) by (assumption || lia).
    now replace (32 + (n - 33) + 1) with n by lia.
Qed.

Lemma rep32_max hi s S :
  hi <= 32 → rep32 hi s S → is_max_of S (QPSet32.findMax s).
Proof.
  intros Hhi [Hw HS]. unfold QPSet32.findMax.
  destruct (Z.eq_dec (QPSet32.m_bits s) 0) as [Hz|Hnz].
  - left. rewrite Hz in *. split; [|reflexivity].
    apply set_eq. intros x. split; [|set_solver]. intros Hx. exfalso.
    apply (word_rep_zero 0 S x Hw Hx). specialize (HS x Hx). lia.
  - right. destruct (word_rep_log2 0 _ S Hw Hnz) as (_ & Hin & Hmax).
    rewrite Z.add_0_r in *. split; [assumption|].
    intros x Hx. apply Hmax; [assumption|]. specialize (HS x Hx). lia.
Qed.

Lemma rep64_max hi s S :
  hi <= 64 → rep64 hi s S → is_max_of S (QPSet64.findMax s).
Proof.
  intros Hhi (Hlo & Hhw & HS). unfold QPSet64.findMax.
  rewrite (u32_small 0) by (unfold word32; lia).
  destruct (Z.eqb_spec (QPSet64.m_bits_1 s) 0) as [Hz|Hnz]; simpl.
  - rewrite Hz in Hhw.
    destruct (Z.eq_dec (QPSet64.m_bits_0 s) 0) as [Hz0|Hnz0].
    + left. rewrite Hz0 in *. split; [|reflexivity].
      apply set_eq. intros x. split; [|set_solver]. intros Hx. exfalso.
      pose proof (word_rep_zero 0 S x Hlo Hx). pose proof (word_rep_zero 32 S x Hhw Hx).
      specialize (HS x Hx). lia.
    + right. destruct (word_rep_log2 0 _ S Hlo Hnz0) as (_ & Hin & Hmax).
      rewrite Z.add_0_r in *. split; [assumption|].
      intros x Hx. apply Hmax; [assumption|].
      pose proof (word_rep_zero 32 S x Hhw Hx). specialize (HS x Hx). lia.
  - right. destruct (word_rep_log2 32 _ S Hhw Hnz) as (Hr & Hin & Hmax).
    split; [assumption|]. intros x Hx.
    destruct (Z_le_gt_dec x 32); [lia|]. apply Hmax; [assumption|].
    specialize (HS x Hx). lia.
Qed.

(** ** Properties of the priority set stated by the documentation *)

(** Claim C7.  After any sequence of [insert] and [remove] operations on
    elements in [1..QF_MAX_ACTIVE], starting from the empty set,
    [hasElement n] holds exactly when [n] is in the abstract set, and
    [findMax] returns the largest element of the abstract set, or [0]
    when it is empty; this holds for the one-word variant
    ([QF_MAX_ACTIVE <= 32]) and for the two-word variant, whose [findMax]
    looks at the high word first and returns [QF_LOG2(high) + 32] when it
    is nonzero, else [QF_LOG2(low)]. *)
Theorem priority_set_correct (QF_MAX_ACTIVE : Z) (ops : list SetOp) :
  ops_in_range QF_MAX_ACTIVE ops →
  (QF_MAX_ACTIVE <= 32 →
   (∀ n, 1 <= n <= QF_MAX_ACTIVE →
         (QPSet32.hasElement (run32 ops) n = true ↔ n ∈ abs_run ops)) ∧
   is_max_of (abs_run ops) (QPSet32.findMax (run32 ops))) ∧
  (32 < QF_MAX_ACTIVE <= 64 →
   (∀ n, 1 <= n <= QF_MAX_ACTIVE →
         (QPSet64.hasElement (run64 ops) n = true ↔ n ∈ abs_run ops)) ∧
   is_max_of (abs_run ops) (QPSet64.findMax (run64 ops)) ∧
   QPSet64.findMax (run64 ops) =
     if QPSet64.m_bits_1 (run64 ops) =? 0
     then QF_LOG2 (QPSet64.m_bits_0 (run64 ops))
     else QF_LOG2 (QPSet64.m_bits_1 (run64 ops)) + 32).
Proof.
  intros Hr. split.
  - intros Hhi. pose proof (rep32_run _ _ Hhi Hr) as Hrep. split.
    + intros n Hn. apply (rep32_has _ _ _ _ Hrep). lia.
    + now apply (rep32_max QF_MAX_ACTIVE).
  - intros [_ Hhi]. pose proof (rep64_run _ _ Hhi Hr) as Hrep. split; [|split].
    + intros n Hn. apply (rep64_has _ _ _ _ Hrep). lia.
    + now apply (rep64_max QF_MAX_ACTIVE).
    + unfold QPSet64.findMax. change (u32 0) with 0.
      now destruct (QPSet64.m_bits_1 (run64 ops) =? 0).
Qed.

(** Claim C10.  In the one-word and in the two-word variant, for every
    state of the set, [notEmpty] returns the negation of [isEmpty]. *)
Theorem notEmpty_negates_isEmpty :
  (∀ s, QPSet32.notEmpty s = negb (QPSet32.isEmpty s)) ∧
  (∀ s, QPSet64.notEmpty s = negb (QPSet64.isEmpty s)).
Proof.
  split; intros s.
  - reflexivity.
  - unfold QPSet64.notEmpty, QPSet64.isEmpty.
    destruct (QPSet64.m_bits_0 s =? u32 0); reflexivity.
Qed.

(** ** Further properties of the priority set *)

(** *** Membership after one update, on words *)

Lemma has_after_set b k i :
  0 <= k < 32 → 0 <= i < 32 →
  Z.testbit (Z.lor b (u32 (Z.shiftl (u32 1) k))) i = (i =? k) || Z.testbit b i.
Proof.
  intros Hk Hi. rewrite bit_mask, set_bit_spec by lia. apply orb_comm.
Qed.

Lemma has_after_clear b k i :
  0 <= k < 32 → 0 <= i < 32 →
  Z.testbit (Z.land b (u32 (Z.lnot (u32 (Z.shiftl (u32 1) k))))) i
  = negb (i =? k) && Z.testbit b i.
Proof.
  intros Hk Hi. rewrite bit_mask by lia.
  rewrite Z.land_spec, clear_mask_spec by lia. apply andb_comm.
Qed.

Lemma u32_idem x : u32 (u32 x) = u32 x.
Proof. apply u32_small, u32_word. Qed.

Lemma hasElement32_bit s n :
  1 <= n <= 32 →
  QPSet32.hasElement s n = Z.testbit (QPSet32.m_bits s) (n - 1).
Proof. intros Hn. unfold QPSet32.hasElement. apply has_bit. lia. Qed.

Lemma hasElement64_bit s n :
  1 <= n <= 64 →
  QPSet64.hasElement s n =
  if n <=? 32 then Z.testbit (QPSet64.m_bits_0 s) (n - 1)
  else Z.testbit (QPSet64.m_bits_1 s) (n - 33).
Proof.
  intros Hn. unfold QPSet64.hasElement.
  destruct (Z.leb_spec n 32); apply has_bit; lia.
Qed.

(** X1.  After [insert n] the set has [n] and, of the other elements,
    exactly those it had before; in both variants, whatever the state. *)
Theorem insert_hasElement :
  (∀ s n m, 1 <= n <= 32 → 1 <= m <= 32 →
     QPSet32.hasElement (QPSet32.insert s n) m
     = (m =? n) || QPSet32.hasElement s m) ∧
  (∀ s n m, 1 <= n <= 64 → 1 <= m <= 64 →
     QPSet64.hasElement (QPSet64.insert s n) m
     = (m =? n) || QPSet64.hasElement s m).
Proof.
  split; intros s n m Hn Hm.
  - rewrite !hasElement32_bit by lia. unfold QPSet32.insert; simpl.
    rewrite u32_idem, has_after_set by lia.
    f_equal. destruct (Z.eqb_spec (m - 1) (n - 1)), (Z.eqb_spec m n); lia || reflexivity.
  - rewrite !hasElement64_bit by lia. unfold QPSet64.insert.
    destruct (Z.leb_spec n 32), (Z.leb_spec m 32); simpl.
    + rewrite has_after_set by lia. f_equal.
      destruct (Z.eqb_spec (m - 1) (n - 1)), (Z.eqb_spec m n); lia || reflexivity.
    + destruct (Z.eqb_spec m n); [lia | reflexivity].
    + destruct (Z.eqb_spec m n); [lia | reflexivity].
    + rewrite has_after_set by lia. f_equal.
      destruct (Z.eqb_spec (m - 33) (n - 33)), (Z.eqb_spec m n); lia || reflexivity.
Qed.

(** X2.  After [remove n] the set does not have [n] and, of the other
    elements, exactly those it had before; in both variants, whatever the
    state. *)
Theorem remove_hasElement :
  (∀ s n m, 1 <= n <= 32 → 1 <= m <= 32 →
     QPSet32.hasElement (QPSet32.remove s n) m
     = negb (m =? n) && QPSet32.hasElement s m) ∧
  (∀ s n m, 1 <= n <= 64 → 1 <= m <= 64 →
     QPSet64.hasElement (QPSet64.remove s n) m
     = negb (m =? n) && QPSet64.hasElement s m).
Proof.
  split; intros s n m Hn Hm.
  - rewrite !hasElement32_bit by lia. unfold QPSet32.remove; simpl.
    rewrite u32_idem, has_after_clear by lia.
    f_equal. destruct (Z.eqb_spec (m - 1) (n - 1)), (Z.eqb_spec m n); lia || reflexivity.
  - rewrite !hasElement64_bit by lia. unfold QPSet64.remove.
    destruct (Z.leb_spec n 32), (Z.leb_spec m 32); simpl.
    + rewrite has_after_clear by lia. f_equal.
      destruct (Z.eqb_spec (m - 1) (n - 1)), (Z.eqb_spec m n); lia || reflexivity.
    + destruct (Z.eqb_spec m n); [lia | reflexivity].
    + destruct (Z.eqb_spec m n); [lia | reflexivity].
    + rewrite has_after_clear by lia. f_equal.
      destruct (Z.eqb_spec (m - 33) (n - 33)), (Z.eqb_spec m n); lia || reflexivity.
Qed.

(** *** Words and their bits *)

Lemma word_eq b c :
  word32 b → word32 c →
  (∀ k, 0 <= k < 32 → Z.testbit b k = Z.testbit c k) → b = c.
Proof.
  intros Hb Hc H. apply Z.bits_inj'. intros i Hi.
  destruct (Z_lt_le_dec i 32).
  - apply H. lia.
  - now rewrite !testbit_word_high by (assumption || lia).
Qed.

Lemma word_zero_iff b :
  word32 b → (b = 0 ↔ ∀ k, 0 <= k < 32 → Z.testbit b k = false).
Proof.
  intros Hb. split.
  - intros -> k _. apply Z.bits_0.
  - intros H. apply word_eq; [assumption | unfold word32; lia |].
    intros k Hk. rewrite Z.bits_0. now apply H.
Qed.

Lemma word_log2 b :
  word32 b → b ≠ 0 →
  0 <= Z.log2 b < 32 ∧ Z.testbit b (Z.log2 b) = true ∧
  ∀ k, Z.testbit b k = true → k <= Z.log2 b.
Proof.
  intros Hb Hnz. unfold word32 in Hb. split; [|split].
  - split; [apply Z.log2_nonneg | apply Z.log2_lt_pow2; lia].
  - apply Z.bit_log2. lia.
  - intros k Hk. destruct (Z_le_gt_dec k (Z.log2 b)); [assumption|].
    rewrite Z.bits_above_log2 in Hk by lia. discriminate.
Qed.

Lemma QF_LOG2_word b : word32 b → 0 <= QF_LOG2 b <= 32 ∧ (QF_LOG2 b = 0 ↔ b = 0).
Proof.
  intros Hb. unfold QF_LOG2. destruct (Z.eqb_spec b 0) as [->|Hnz].
  - split; [lia | tauto].
  - destruct (word_log2 b Hb Hnz) as (Hl & _). split; [lia|]. split; [lia | contradiction].
Qed.

Lemma insert_wf :
  (∀ s n, wf32 s → wf32 (QPSet32.insert s n)) ∧
  (∀ s n, wf64 s → wf64 (QPSet64.insert s n)).
Proof.
  assert (H : ∀ b m, word32 b → word32 (Z.lor b (u32 m))).
  { intros b m Hb. pose proof (u32_word m) as Hm. unfold word32 in *. split.
    - apply Z.lor_nonneg. lia.
    - destruct (Z.eq_dec (Z.lor b (u32 m)) 0) as [->|Hnz]; [lia|].
      assert (0 <= Z.lor b (u32 m)) by (apply Z.lor_nonneg; lia).
      apply Z.log2_lt_pow2; [lia|]. rewrite Z.log2_lor by lia.
      destruct (Z.eq_dec b 0) as [->|?], (Z.eq_dec (u32 m) 0) as [Hz|?];
        rewrite ?Hz; simpl;
        repeat match goal with
               | |- context [Z.log2 ?x] =>
                   lazymatch goal with
                   | _ : Z.log2 x < 32 |- _ => fail
                   | _ => assert (Z.log2 x < 32) by (apply Z.log2_lt_pow2; lia)
                   end
               end; lia. }
  split.
  - intros s n Hs. unfold wf32, QPSet32.insert; simpl. now apply H.
  - intros s n [H0 H1]. unfold wf64, QPSet64.insert.
    destruct (n <=? 32); simpl; split; try assumption; now apply H.
Qed.

Lemma remove_wf :
  (∀ s n, wf32 s → wf32 (QPSet32.remove s n)) ∧
  (∀ s n, wf64 s → wf64 (QPSet64.remove s n)).
Proof.
  split.
  - intros s n Hs. unfold wf32, QPSet32.remove; simpl.
    apply clear_bit_word; [assumption | apply u32_word].
  - intros s n [H0 H1]. unfold wf64, QPSet64.remove.
    destruct (n <=? 32); simpl; split; try assumption;
      (apply clear_bit_word; [assumption | apply u32_word]).
Qed.

(** X3.  [isEmpty] is true exactly when the set has no element: in both
    variants, for every state whose words are [uint32_t] values. *)
Theorem isEmpty_no_element :
  (∀ s, wf32 s →
     (QPSet32.isEmpty s = true ↔
      ∀ n, 1 <= n <= 32 → QPSet32.hasElement s n = false)) ∧
  (∀ s, wf64 s →
     (QPSet64.isEmpty s = true ↔
      ∀ n, 1 <= n <= 64 → QPSet64.hasElement s n = false)).
Proof.
  split.
  - intros s Hs. unfold QPSet32.isEmpty. change (u32 0) with 0.
    rewrite Z.eqb_eq, (word_zero_iff _ Hs). split.
    + intros H n Hn. rewrite hasElement32_bit by lia. apply H. lia.
    + intros H k Hk. specialize (H (k + 1) ltac:(lia)).
      rewrite hasElement32_bit in H by lia.
      now replace (k + 1 - 1) with k in H by lia.
  - intros s [H0 H1]. unfold QPSet64.isEmpty. change (u32 0) with 0. split.
    + intros He n Hn. rewrite hasElement64_bit by lia.
      destruct (Z.eqb_spec (QPSet64.m_bits_0 s) 0) as [Hz0|?]; [|discriminate].
      apply Z.eqb_eq in He. rewrite Hz0, He.
      destruct (n <=? 32); apply Z.bits_0.
    + intros H.
      assert (Hz0 : QPSet64.m_bits_0 s = 0).
      { apply (word_zero_iff _ H0). intros k Hk.
        specialize (H (k + 1) ltac:(lia)). rewrite hasElement64_bit in H by lia.
        destruct (Z.leb_spec (k + 1) 32); [|lia].
        now replace (k + 1 - 1) with k in H by lia. }
      assert (Hz1 : QPSet64.m_bits_1 s = 0).
      { apply (word_zero_iff _ H1). intros k Hk.
        specialize (H (k + 33) ltac:(lia)). rewrite hasElement64_bit in H by lia.
        destruct (Z.leb_spec (k + 33) 32); [lia|].
        now replace (k + 33 - 33) with k in H by lia. }
      now rewrite Hz0, Hz1.
Qed.

Lemma findMax32_spec s :
  wf32 s → QPSet32.m_bits s ≠ 0 →
  1 <= QPSet32.findMax s <= 32 ∧
  Z.testbit (QPSet32.m_bits s) (QPSet32.findMax s - 1) = true ∧
  ∀ k, Z.testbit (QPSet32.m_bits s) k = true → k + 1 <= QPSet32.findMax s.
Proof.
  intros Hs Hnz. destruct (word_log2 _ Hs Hnz) as (Hl & Hb & Hmax).
  unfold QPSet32.findMax, QF_LOG2.
  destruct (Z.eqb_spec (QPSet32.m_bits s) 0); [contradiction|].
  split; [lia|]. split.
  - now replace (1 + Z.log2 (QPSet32.m_bits s) - 1) with (Z.log2 (QPSet32.m_bits s)) by lia.
  - intros k Hk. specialize (Hmax k Hk). lia.
Qed.

(** X4.  For every state whose words are [uint32_t] values, [findMax]
    returns 0 exactly when the set is empty; otherwise it returns an
    element of the set, within [1..32] (resp. [1..64]), and no element of
    the set is larger. *)
Theorem findMax_member_or_zero :
  (∀ s, wf32 s →
     (QPSet32.findMax s = 0 ↔ QPSet32.isEmpty s = true) ∧
     (QPSet32.isEmpty s = false →
      1 <= QPSet32.findMax s <= 32 ∧
      QPSet32.hasElement s (QPSet32.findMax s) = true ∧
      ∀ n, 1 <= n <= 32 → QPSet32.hasElement s n = true →
           n <= QPSet32.findMax s)) ∧
  (∀ s, wf64 s →
     (QPSet64.findMax s = 0 ↔ QPSet64.isEmpty s = true) ∧
     (QPSet64.isEmpty s = false →
      1 <= QPSet64.findMax s <= 64 ∧
      QPSet64.hasElement s (QPSet64.findMax s) = true ∧
      ∀ n, 1 <= n <= 64 → QPSet64.hasElement s n = true →
           n <= QPSet64.findMax s)).
Proof.
  split.
  - intros s Hs. unfold QPSet32.isEmpty. change (u32 0) with 0. split.
    + unfold QPSet32.findMax. rewrite Z.eqb_eq. apply QF_LOG2_word, Hs.
    + intros He. apply Z.eqb_neq in He.
      destruct (findMax32_spec s Hs He) as (Hr & Hb & Hmax).
      split; [assumption|]. split.
      * now rewrite hasElement32_bit.
      * intros n Hn Hh. rewrite hasElement32_bit in Hh by lia.
        specialize (Hmax _ Hh). lia.
  - intros s [H0 H1]. unfold QPSet64.isEmpty, QPSet64.findMax.
    change (u32 0) with 0.
    destruct (QF_LOG2_word _ H0) as [Hr0 Hz0], (QF_LOG2_word _ H1) as [Hr1 Hz1].
    destruct (Z.eqb_spec (QPSet64.m_bits_1 s) 0) as [E1|N1]; simpl.
    + destruct (Z.eqb_spec (QPSet64.m_bits_0 s) 0) as [E0|N0].
      * split; [tauto | discriminate].
      * split; [split; [intros H; apply Hz0 in H; contradiction | discriminate]|].
        intros _. destruct (word_log2 _ H0 N0) as (Hl & Hb & Hmax).
        assert (HL : QF_LOG2 (QPSet64.m_bits_0 s) = 1 + Z.log2 (QPSet64.m_bits_0 s)).
        { unfold QF_LOG2. now destruct (Z.eqb_spec (QPSet64.m_bits_0 s) 0). }
        split; [lia|]. split.
        -- rewrite hasElement64_bit by lia. rewrite HL.
           destruct (Z.leb_spec (1 + Z.log2 (QPSet64.m_bits_0 s)) 32); [|lia].
           now replace (1 + Z.log2 (QPSet64.m_bits_0 s) - 1)
             with (Z.log2 (QPSet64.m_bits_0 s)) by lia.
        -- intros n Hn Hh. rewrite hasElement64_bit in Hh by lia.
           destruct (Z.leb_spec n 32).
           ++ specialize (Hmax _ Hh). lia.
           ++ rewrite E1, Z.bits_0 in Hh. discriminate.
    + destruct (word_log2 _ H1 N1) as (Hl & Hb & Hmax).
      assert (HL : QF_LOG2 (QPSet64.m_bits_1 s) = 1 + Z.log2 (QPSet64.m_bits_1 s)).
      { unfold QF_LOG2. now destruct (Z.eqb_spec (QPSet64.m_bits_1 s) 0). }
      split.
      * split; [lia|]. intros He.
        destruct (QPSet64.m_bits_0 s =? 0); discriminate.
      * intros _. split; [lia|]. split.
        -- rewrite hasElement64_bit by lia. rewrite HL.
           destruct (Z.leb_spec (1 + Z.log2 (QPSet64.m_bits_1 s) + 32) 32); [lia|].
           now replace (1 + Z.log2 (QPSet64.m_bits_1 s) + 32 - 33)
             with (Z.log2 (QPSet64.m_bits_1 s)) by lia.
        -- intros n Hn Hh. rewrite hasElement64_bit in Hh by lia.
           destruct (Z.leb_spec n 32); [lia|].
           specialize (Hmax _ Hh). lia.
Qed.

(** *** Clearing the highest bit; setting and clearing one bit *)

Lemma clear_top_lower b :
  word32 b → b ≠ 0 →
  word32 (Z.land b (u32 (Z.lnot (u32 (Z.shiftl (u32 1) (Z.log2 b)))))) ∧
  QF_LOG2 (Z.land b (u32 (Z.lnot (u32 (Z.shiftl (u32 1) (Z.log2 b))))))
  < QF_LOG2 b.
Proof.
  intros Hb Hnz. destruct (word_log2 b Hb Hnz) as (Hl & Htop & Hmax).
  set (b' := Z.land b _).
  assert (Hb' : word32 b') by (apply clear_bit_word; [assumption | apply u32_word]).
  split; [assumption|].
  unfold QF_LOG2 at 2. destruct (Z.eqb_spec b 0); [contradiction|].
  unfold QF_LOG2. destruct (Z.eqb_spec b' 0) as [_|Hnz']; [lia|].
  destruct (word_log2 b' Hb' Hnz') as (Hl' & Htop' & _).
  unfold b' in Htop' at 1. rewrite has_after_clear in Htop' by lia.
  apply andb_true_iff in Htop' as [Hne Hin].
  apply negb_true_iff, Z.eqb_neq in Hne. specialize (Hmax _ Hin). lia.
Qed.

Lemma set_then_clear b k :
  word32 b → 0 <= k < 32 → Z.testbit b k = false →
  Z.land (Z.lor b (u32 (Z.shiftl (u32 1) k)))
         (u32 (Z.lnot (u32 (Z.shiftl (u32 1) k)))) = b.
Proof.
  intros Hb Hk Hbit. apply word_eq; [|assumption|].
  - apply clear_bit_word; [|apply u32_word].
    rewrite bit_mask by lia. now apply set_bit_word.
  - intros i Hi. rewrite has_after_clear, has_after_set by lia.
    destruct (Z.eqb_spec i k) as [->|_]; simpl; [now rewrite Hbit | reflexivity].
Qed.

Lemma clear_then_set b k :
  word32 b → 0 <= k < 32 → Z.testbit b k = true →
  Z.lor (Z.land b (u32 (Z.lnot (u32 (Z.shiftl (u32 1) k)))))
        (u32 (Z.shiftl (u32 1) k)) = b.
Proof.
  intros Hb Hk Hbit. apply word_eq; [|assumption|].
  - rewrite (bit_mask k) at 2 by lia. apply set_bit_word; [|assumption].
    apply clear_bit_word; [assumption | apply u32_word].
  - intros i Hi. rewrite has_after_set, has_after_clear by lia.
    destruct (Z.eqb_spec i k) as [->|_]; simpl; [now rewrite Hbit | reflexivity].
Qed.

(** X5.  Removing the element that [findMax] returns makes [findMax]
    strictly smaller: in both variants, for every non-empty state whose
    words are [uint32_t] values.  Taking the maximum again and again
    therefore empties the set. *)
Theorem remove_findMax_decreases :
  (∀ s, wf32 s → QPSet32.isEmpty s = false →
     wf32 (QPSet32.remove s (QPSet32.findMax s)) ∧
     QPSet32.findMax (QPSet32.remove s (QPSet32.findMax s))
     < QPSet32.findMax s) ∧
  (∀ s, wf64 s → QPSet64.isEmpty s = false →
     wf64 (QPSet64.remove s (QPSet64.findMax s)) ∧
     QPSet64.findMax (QPSet64.remove s (QPSet64.findMax s))
     < QPSet64.findMax s).
Proof.
  split.
  - intros s Hs He. unfold QPSet32.isEmpty in He. change (u32 0) with 0 in He.
    apply Z.eqb_neq in He.
    destruct (clear_top_lower _ Hs He) as [Hw Hlt].
    assert (Hp : QPSet32.findMax s - 1 = Z.log2 (QPSet32.m_bits s)).
    { unfold QPSet32.findMax, QF_LOG2.
      destruct (Z.eqb_spec (QPSet32.m_bits s) 0); [contradiction | lia]. }
    unfold wf32, QPSet32.remove; simpl. rewrite u32_idem, Hp.
    split; [assumption|]. exact Hlt.
  - intros s [H0 H1] He. unfold QPSet64.isEmpty in He. change (u32 0) with 0 in He.
    destruct (QF_LOG2_word _ H0) as [Hr0 Hz0], (QF_LOG2_word _ H1) as [Hr1 Hz1].
    unfold QPSet64.findMax at 1 3 4. change (u32 0) with 0.
    destruct (Z.eqb_spec (QPSet64.m_bits_1 s) 0) as [E1|N1]; simpl.
    + destruct (Z.eqb_spec (QPSet64.m_bits_0 s) 0) as [E0|N0]; [discriminate|].
      destruct (clear_top_lower _ H0 N0) as [Hw Hlt].
      assert (Hp : QF_LOG2 (QPSet64.m_bits_0 s) - 1 = Z.log2 (QPSet64.m_bits_0 s)).
      { unfold QF_LOG2. destruct (Z.eqb_spec (QPSet64.m_bits_0 s) 0); [contradiction | lia]. }
      unfold QPSet64.remove, wf64, QPSet64.findMax.
      destruct (Z.leb_spec (QF_LOG2 (QPSet64.m_bits_0 s)) 32); [|lia]. simpl.
      rewrite Hp, E1. change (u32 0) with 0. simpl.
      split; [split; [assumption | unfold word32; lia] | exact Hlt].
    + destruct (clear_top_lower _ H1 N1) as [Hw Hlt].
      assert (Hl : 1 <= QF_LOG2 (QPSet64.m_bits_1 s)).
      { destruct (Z.eq_dec (QF_LOG2 (QPSet64.m_bits_1 s)) 0) as [Hz|?]; [|lia].
        apply Hz1 in Hz. contradiction. }
      assert (Hp : QF_LOG2 (QPSet64.m_bits_1 s) + 32 - 33 = Z.log2 (QPSet64.m_bits_1 s)).
      { unfold QF_LOG2. destruct (Z.eqb_spec (QPSet64.m_bits_1 s) 0); [contradiction | lia]. }
      unfold QPSet64.remove, wf64, QPSet64.findMax.
      destruct (Z.leb_spec (QF_LOG2 (QPSet64.m_bits_1 s) + 32) 32); [lia|]. simpl.
      rewrite Hp. change (u32 0) with 0.
      split; [split; assumption|].
      match goal with |- context [negb (?x =? 0)] => destruct (Z.eqb_spec x 0) end;
        simpl; lia.
Qed.

(** X6.  Round trips on the state: removing an element just inserted
    into a set that did not have it, and inserting again an element just
    removed from a set that had it, give back the very same words; in
    both variants, for states whose words are [uint32_t] values. *)
Theorem insert_remove_round_trip :
  (∀ s n, wf32 s → 1 <= n <= 32 →
     (QPSet32.hasElement s n = false →
      QPSet32.remove (QPSet32.insert s n) n = s) ∧
     (QPSet32.hasElement s n = true →
      QPSet32.insert (QPSet32.remove s n) n = s)) ∧
  (∀ s n, wf64 s → 1 <= n <= 64 →
     (QPSet64.hasElement s n = false →
      QPSet64.remove (QPSet64.insert s n) n = s) ∧
     (QPSet64.hasElement s n = true →
      QPSet64.insert (QPSet64.remove s n) n = s)).
Proof.
  split.
  - intros [b] n Hs Hn. unfold wf32 in Hs. simpl in Hs.
    rewrite hasElement32_bit by lia. simpl.
    unfold QPSet32.remove, QPSet32.insert; simpl. rewrite !u32_idem.
    split; intros Hbit; f_equal.
    + apply set_then_clear; (assumption || lia).
    + apply clear_then_set; (assumption || lia).
  - intros [b0 b1] n [H0 H1] Hn. simpl in H0, H1.
    rewrite hasElement64_bit by lia. simpl.
    unfold QPSet64.remove, QPSet64.insert.
    destruct (Z.leb_spec n 32); simpl; split; intros Hbit; f_equal;
      (apply set_then_clear || apply clear_then_set); (assumption || lia).
Qed.

(** ** The example states are well-formed *)

Ltac demo_slots :=
  let i := fresh "i" in let x := fresh "x" in let H := fresh "H" in
  intros i x H;
  repeat (destruct i as [|i]; simpl in H;
          [injection H as <-; reflexivity|]);
  try (rewrite lookup_nil in H); discriminate.

Ltac demo_Rep :=
  unfold Rep; simpl;
  repeat match goal with
         | |- _ ∧ _ => split
         | |- Forall _ _ => repeat constructor; lia
         | |- ring_slots _ _ _ _ => demo_slots
         | |- _ → _ => intros _
         | |- _ => lia
         | |- _ => reflexivity
         end.

Lemma demo_empty_Rep : Rep 8 (m_eQueue (me demo_empty)) [].
Proof. demo_Rep. Qed.

Lemma demo_one_Rep : Rep 8 (m_eQueue (me demo_one)) [1].
Proof. demo_Rep. Qed.

Lemma demo_two_Rep : Rep 8 (m_eQueue (me demo_two)) [1; 2].
Proof. demo_Rep. Qed.

Lemma demo_three_Rep : Rep 8 (m_eQueue (me demo_three)) [1; 2; 3].
Proof. demo_Rep. Qed.

Lemma demo_four_Rep : Rep 8 (m_eQueue (me demo_four)) [1; 2; 3; 4].
Proof. demo_Rep. Qed.

Lemma demo_valid e : 1 <= e <= 5 → valid_evt demo_evts e.
Proof.
  intros H. split; [lia|].
  assert (e = 1 ∨ e = 2 ∨ e = 3 ∨ e = 4 ∨ e = 5) as [->|[->|[->|[->| ->]]]] by lia;
    eexists; reflexivity.
Qed.

(** Preconditions along a concrete run, by evaluation. *)
Ltac respects_by_evaluation :=
  vm_compute;
  repeat match goal with
         | |- _ ∧ _ => split
         | |- ∃ _, _ => eexists; reflexivity
         | |- True => exact I
         | |- _ = _ → False => discriminate
         | |- _ → _ => intros _
         end.

(** ** The documentation's scenarios, by evaluation

    [QF_MAX_ACTIVE = 8]; the active object has priority 3 and a ring of
    four slots; the queue counters are one byte wide. *)

(** Posting to the empty queue fills the front slot, leaves four free
    slots and raises the queue signal once. *)
Example scenario_first_post :
  ∃ s, post_ 8 gc_none 1 0 (AO_init 8 3 [0; 0; 0; 0] 4 demo_evts) = Ok (true, s) ∧
       m_frontEvt (m_eQueue (me s)) = 1 ∧
       m_nFree (m_eQueue (me s)) = 4 ∧
       port_log s = [EQUEUE_SIGNAL].
Proof. eexists. split; [vm_compute; reflexivity|]. repeat split. Qed.

(** Five posts fill the queue; the sixth post with margin 0 fails
    assertion 110. *)
Example scenario_ring_wrap :
  (∃ s, run 8 gc_none [OpPost 1 0; OpPost 2 0; OpPost 3 0; OpPost 4 0; OpPost 5 0]
            (AO_init 8 3 [0; 0; 0; 0] 4 demo_evts)
        = Ok ([RPost true; RPost true; RPost true; RPost true; RPost true], s) ∧
        m_frontEvt (m_eQueue (me s)) = 1 ∧
        m_ring (m_eQueue (me s)) = [2; 5; 4; 3] ∧
        m_nFree (m_eQueue (me s)) = 0) ∧
  run 8 gc_none
      [OpPost 1 0; OpPost 2 0; OpPost 3 0; OpPost 4 0; OpPost 5 0; OpPost 1 0]
      (AO_init 8 3 [0; 0; 0; 0] 4 demo_evts)
  = AssertFail 110.
Proof.
  split; [|vm_compute; reflexivity].
  eexists. split; [vm_compute; reflexivity|]. repeat split.
Qed.

(** With one free slot, a post with margin 1 is refused and the event is
    handed to [QF::gc]; the queue is as before. *)
Example scenario_back_pressure :
  post_ 8 gc_none 5 1 demo_four
  = Ok (false, mkAOState (me demo_four) (evts demo_four) [GC 5]).
Proof. reflexivity. Qed.

(** A LIFO post overtakes the queued events. *)
Example scenario_lifo :
  ∃ s, run 8 gc_none [OpPostLIFO 3; OpGet; OpGet; OpGet] demo_two
       = Ok ([RPostLIFO; RGet 3; RGet 1; RGet 2], s) ∧
       m_nFree (m_eQueue (me s)) = 5.
Proof. eexists. split; [vm_compute; reflexivity|]. reflexivity. Qed.

(** The boundary between the two words of the 64-element set. *)
Example scenario_set_boundaries :
  QPSet64.findMax (run64 [Insert 33]) = 33 ∧
  QPSet64.findMax (run64 [Insert 33; Insert 1]) = 33 ∧
  QPSet64.findMax (run64 [Insert 33; Insert 1; Remove 33]) = 1 ∧
  QPSet64.findMax (run64 [Insert 33; Insert 1; Remove 33; Remove 1]) = 0 ∧
  QPSet64.isEmpty (run64 [Insert 33; Insert 1; Remove 33; Remove 1]) = true.
Proof. repeat split. Qed.

(** ** The properties at work on concrete queues and sets *)

Lemma post__accepts_iff_room_witness :
  Rep 8 (m_eQueue (me demo_four)) [1; 2; 3; 4] ∧
  valid_evt (evts demo_four) 5 ∧
  ∃ s', post_ 8 gc_none 5 0 demo_four = Ok (true, s') ∧
        m_nFree (m_eQueue (me s')) = 0.
Proof.
  split; [exact demo_four_Rep|].
  split; [apply demo_valid; lia|].
  destruct (post__accepts_iff_room 8 gc_none demo_four 5 0) as (Hiff & _ & Htot).
  destruct (Htot [1; 2; 3; 4] demo_four_Rep (demo_valid 5 ltac:(lia)))
    as (b & s' & Hp); [right; reflexivity|].
  destruct (Hiff b s' Hp) as [Hb Hst].
  assert (b = true) as -> by (apply Hb; reflexivity).
  exists s'. split; [assumption|].
  destruct (Hst eq_refl) as (_ & _ & Hn). rewrite Hn; [reflexivity|].
  split; [discriminate | reflexivity].
Defined.

Lemma queue_accounting_witness :
  respects 8 gc_none
           ([OpPost 1 0; OpPost 2 0; OpPostLIFO 3; OpGet] ++ [OpGet])
           (AO_init 8 3 [0; 0; 0; 0] 4 demo_evts) ∧
  ∃ rs s', run 8 gc_none [OpPost 1 0; OpPost 2 0; OpPostLIFO 3; OpGet]
               (AO_init 8 3 [0; 0; 0; 0] 4 demo_evts) = Ok (rs, s') ∧
           m_nFree (m_eQueue (me s')) + held_count rs
             = m_end (m_eQueue (me s')) + 1.
Proof.
  assert (Hres : respects 8 gc_none
           ([OpPost 1 0; OpPost 2 0; OpPostLIFO 3; OpGet] ++ [OpGet])
           (AO_init 8 3 [0; 0; 0; 0] 4 demo_evts)).
  { respects_by_evaluation. }
  split; [exact Hres|].
  destruct (queue_accounting 8 gc_none 3 [0; 0; 0; 0] 4 demo_evts
              [OpPost 1 0; OpPost 2 0; OpPostLIFO 3; OpGet] [OpGet]
              ltac:(lia) ltac:(lia) eq_refl Hres)
    as (rs & s' & Hrun & _ & _ & Hacc & _).
  exists rs, s'. split; assumption.
Defined.

Lemma fifo_order_witness :
  Rep 8 (m_eQueue (me demo_one)) [1] ∧
  Forall (fun p => valid_evt (evts demo_one) (fst p)) [(2, 0); (3, 1)] ∧
  capacity_for 8 (m_nFree (m_eQueue (me demo_one))) [(2, 0); (3, 1)] ∧
  ∃ s1, run 8 gc_none [OpPost 2 0; OpPost 3 1] demo_one
        = Ok ([RPost true; RPost true], s1) ∧
  ∃ s2, run 8 gc_none [OpGet; OpGet; OpGet] s1
        = Ok ([RGet 1; RGet 2; RGet 3], s2).
Proof.
  assert (Hv : Forall (fun p => valid_evt (evts demo_one) (fst p)) [(2, 0); (3, 1)]).
  { repeat constructor; simpl; try lia; eexists; reflexivity. }
  assert (Hc : capacity_for 8 (m_nFree (m_eQueue (me demo_one))) [(2, 0); (3, 1)]).
  { simpl. repeat split; reflexivity. }
  split; [exact demo_one_Rep|]. split; [exact Hv|]. split; [exact Hc|].
  exact (fifo_order 8 gc_none demo_one [1] [(2, 0); (3, 1)] demo_one_Rep Hv Hc).
Defined.

Lemma lifo_order_witness :
  Rep 8 (m_eQueue (me demo_two)) [1; 2] ∧
  valid_evt (evts demo_two) 3 ∧
  m_nFree (m_eQueue (me demo_two)) ≠ 0 ∧
  ∃ s1, postLIFO 8 3 demo_two = Ok (tt, s1) ∧
  ∃ s2, run 8 gc_none [OpGet; OpGet; OpGet] s1
        = Ok ([RGet 3; RGet 1; RGet 2], s2).
Proof.
  assert (Hn : m_nFree (m_eQueue (me demo_two)) ≠ 0) by discriminate.
  split; [exact demo_two_Rep|]. split; [apply demo_valid; lia|].
  split; [exact Hn|].
  destruct (lifo_order 8 gc_none demo_two [1; 2] 3 demo_two_Rep
              (demo_valid 3 ltac:(lia)) Hn) as (s1 & Hp & _ & Hthree).
  exists s1. split; [assumption|]. now apply Hthree.
Defined.

Lemma post__back_pressure_witness :
  5 ≠ 0 ∧ 0 < 1 ∧ m_nFree (m_eQueue (me demo_four)) <= to_ctr 8 1 ∧
  ∃ s', post_ 8 gc_none 5 1 demo_four = Ok (false, s') ∧
        me s' = me demo_four ∧
        port_log s' = port_log demo_four ++ [GC 5] ∧
        evts s' = gc_none 5 (evts demo_four).
Proof.
  assert (H5 : 5 ≠ 0) by discriminate.
  assert (H1 : 0 < 1) by reflexivity.
  assert (Hn : m_nFree (m_eQueue (me demo_four)) <= to_ctr 8 1) by discriminate.
  split; [exact H5|]. split; [exact H1|]. split; [exact Hn|].
  exact (proj1 (post__back_pressure 8 gc_none demo_four 5 1 H5 H1 Hn)).
Defined.

Lemma overflow_is_fatal_witness :
  (∃ id, post_ 8 gc_none 5 0 demo_full = AssertFail id) ∧
  postLIFO 8 5 demo_full = AssertFail 210 ∧
  (∀ id, post_ 8 gc_none 5 0 demo_four ≠ AssertFail id) ∧
  (∀ id, postLIFO 8 5 demo_four ≠ AssertFail id).
Proof.
  destruct (overflow_is_fatal 8 gc_none demo_full 5) as (Hp & _ & Hl & _).
  destruct (overflow_is_fatal 8 gc_none demo_four 5) as (_ & _ & _ & Hp' & Hl').
  split; [apply Hp; discriminate|]. split; [apply Hl; reflexivity|].
  split; [apply Hp'; [discriminate | reflexivity] | apply Hl'; discriminate].
Defined.

Lemma min_tracking_witness :
  8 <= 16 ∧
  respects 8 gc_none ([OpPost 1 0; OpPost 2 0; OpGet] ++ [OpPost 3 0; OpPost 4 0; OpPost 5 0])
           (AO_init 8 3 [0; 0; 0; 0] 4 demo_evts) ∧
  ∃ rs s1 rs' s2,
    run 8 gc_none [OpPost 1 0; OpPost 2 0; OpGet]
        (AO_init 8 3 [0; 0; 0; 0] 4 demo_evts) = Ok (rs, s1) ∧
    run 8 gc_none [OpPost 3 0; OpPost 4 0; OpPost 5 0] s1 = Ok (rs', s2) ∧
    m_nMin (m_eQueue (me s2)) <= m_nMin (m_eQueue (me s1)) ∧
    getQueueMin 16 8 3 [None; None; None; Some (me s1)]
      = Ok (m_nMin (m_eQueue (me s1)), [None; None; None; Some (me s1)]).
Proof.
  assert (Hres : respects 8 gc_none
            ([OpPost 1 0; OpPost 2 0; OpGet] ++ [OpPost 3 0; OpPost 4 0; OpPost 5 0])
            (AO_init 8 3 [0; 0; 0; 0] 4 demo_evts)).
  { respects_by_evaluation. }
  split; [discriminate|]. split; [exact Hres|].
  destruct (min_tracking 8 16 8 gc_none 3 [0; 0; 0; 0] 4 demo_evts
              [OpPost 1 0; OpPost 2 0; OpGet] [OpPost 3 0; OpPost 4 0; OpPost 5 0]
              ltac:(discriminate) ltac:(discriminate) eq_refl eq_refl Hres)
    as (rs & s1 & rs' & s2 & Hr1 & Hr2 & _ & _ & _ & Hmono & Hget).
  exists rs, s1, rs', s2.
  split; [assumption|]. split; [assumption|]. split; [assumption|].
  apply Hget; [split; discriminate | reflexivity].
Defined.


Lemma priority_set_correct_witness :
  ops_in_range 64 [Insert 33; Insert 1; Remove 33; Insert 40] ∧
  32 < 64 <= 64 ∧
  (QPSet64.hasElement (run64 [Insert 33; Insert 1; Remove 33; Insert 40]) 40 = true
   ↔ 40 ∈ abs_run [Insert 33; Insert 1; Remove 33; Insert 40]) ∧
  is_max_of (abs_run [Insert 33; Insert 1; Remove 33; Insert 40])
            (QPSet64.findMax (run64 [Insert 33; Insert 1; Remove 33; Insert 40])) ∧
  ops_in_range 8 [Insert 3; Insert 5; Remove 5] ∧
  8 <= 32 ∧
  is_max_of (abs_run [Insert 3; Insert 5; Remove 5])
            (QPSet32.findMax (run32 [Insert 3; Insert 5; Remove 5])).
Proof.
  assert (H64 : ops_in_range 64 [Insert 33; Insert 1; Remove 33; Insert 40]).
  { repeat constructor; simpl; discriminate. }
  assert (H8 : ops_in_range 8 [Insert 3; Insert 5; Remove 5]).
  { repeat constructor; simpl; discriminate. }
  assert (Hr : 32 < 64 <= 64) by (split; [reflexivity | discriminate]).
  destruct (priority_set_correct 64 _ H64) as [_ Htwo].
  destruct (Htwo Hr) as (Hhas & Hmax & _).
  destruct (priority_set_correct 8 _ H8) as [Hone _].
  destruct (Hone ltac:(discriminate)) as [_ Hmax8].
  split; [exact H64|]. split; [exact Hr|].
  split; [apply Hhas; split; discriminate|].
  split; [exact Hmax|]. split; [exact H8|]. split; [discriminate | exact Hmax8].
Defined.

(** ** Where the code departs from its documentation *)

(** Claim C1.  The documentation of [post_] has the margin as the number
    of free slots that must be available for the post to succeed.  With
    one-byte queue counters the cast of the margin 256 gives 0: after
    four posts into a queue of capacity 4 one slot is free, and [post_]
    with margin 256 returns [true] although 1 is not greater than 256. *)
Lemma post__margin_256_accepted :
  ∃ s s',
    run 8 gc_none [OpPost 1 0; OpPost 2 0; OpPost 3 0; OpPost 4 0]
        (AO_init 8 3 [0; 0; 0; 0] 4 demo_evts)
      = Ok ([RPost true; RPost true; RPost true; RPost true], s) ∧
    m_nFree (m_eQueue (me s)) = 1 ∧
    post_ 8 gc_none 5 256 s = Ok (true, s') ∧
    ¬ (m_nFree (m_eQueue (me s)) > 256).
Proof.
  eexists _, _. split; [vm_compute; reflexivity|].
  split; [reflexivity|]. split; [vm_compute; reflexivity|].
  vm_compute. discriminate.
Qed.

(** The other branch of [post_] tests the margin as it was passed: on
    the full queue the margin 256, which the comparison took for 0, is not
    the "special" zero margin of the assertion, and the post is refused
    where a margin of 0 fails assertion 110. *)
Example post__margin_256_refused_when_full :
  (∃ s', post_ 8 gc_none 5 256 demo_full = Ok (false, s')) ∧
  post_ 8 gc_none 5 0 demo_full = AssertFail 110.
Proof.
  split; [eexists; vm_compute; reflexivity | vm_compute; reflexivity].
Qed.

(** Claim C5.  With a margin greater than zero and no more free slots
    than the margin, the documentation of [post_] has the post fail.
    With one-byte queue counters the cast of the margin 512 gives 0: with
    two free slots, [post_] with margin 512 does not return [false]; it
    returns [true] and takes a slot. *)
Lemma post__margin_512_accepted :
  ∃ s s',
    run 8 gc_none [OpPost 1 0; OpPost 2 0; OpPost 3 0]
        (AO_init 8 3 [0; 0; 0; 0] 4 demo_evts)
      = Ok ([RPost true; RPost true; RPost true], s) ∧
    512 > 0 ∧ m_nFree (m_eQueue (me s)) <= 512 ∧
    post_ 8 gc_none 4 512 s = Ok (true, s') ∧
    m_nFree (m_eQueue (me s')) = m_nFree (m_eQueue (me s)) - 1.
Proof.
  eexists _, _. split; [vm_compute; reflexivity|].
  split; [reflexivity|]. split; [vm_compute; discriminate|].
  split; [vm_compute; reflexivity|]. reflexivity.
Qed.

(** ** Where the documentation's wording departs from the code *)

(** Posted to a queue that already holds event [1], event [2] is not what
    the next [get_] returns. *)
Lemma get__returns_older_event :
  ∃ s s1 s2,
    run 8 gc_none [OpPost 1 0] (AO_init 8 3 [0; 0; 0; 0] 4 demo_evts)
      = Ok ([RPost true], s) ∧
    post_ 8 gc_none 2 0 s = Ok (true, s1) ∧
    get_ 8 s1 = Ok (1, s2) ∧
    ¬ (get_ 8 s1 = Ok (2, s2)).
Proof.
  eexists _, _, _. split; [vm_compute; reflexivity|].
  split; [vm_compute; reflexivity|]. split; [vm_compute; reflexivity|].
  vm_compute. discriminate.
Qed.


(** ** The further properties at concrete inputs *)

(** Two priority sets with members on both sides of the word boundary. *)
Definition demo_set32 : QPSet32.QPSet := run32 [Insert 3; Insert 5; Insert 32].
Definition demo_set64 : QPSet64.QPSet := run64 [Insert 1; Insert 33; Insert 40].

Lemma demo_set32_wf : wf32 demo_set32.
Proof. unfold wf32, word32. vm_compute. split; [discriminate | reflexivity]. Qed.

Lemma demo_set64_wf : wf64 demo_set64.
Proof.
  unfold wf64, word32. vm_compute.
  split; split; (discriminate || reflexivity).
Qed.

Lemma insert_hasElement_witness :
  1 <= 7 <= 32 ∧ 1 <= 5 <= 32 ∧
  QPSet32.hasElement (QPSet32.insert demo_set32 7) 5
  = (5 =? 7) || QPSet32.hasElement demo_set32 5 ∧
  1 <= 34 <= 64 ∧ 1 <= 33 <= 64 ∧
  QPSet64.hasElement (QPSet64.insert demo_set64 34) 33
  = (33 =? 34) || QPSet64.hasElement demo_set64 33.
Proof.
  assert (H7 : 1 <= 7 <= 32) by lia. assert (H5 : 1 <= 5 <= 32) by lia.
  assert (H34 : 1 <= 34 <= 64) by lia. assert (H33 : 1 <= 33 <= 64) by lia.
  split; [exact H7|]. split; [exact H5|].
  split; [exact (proj1 insert_hasElement demo_set32 7 5 H7 H5)|].
  split; [exact H34|]. split; [exact H33|].
  exact (proj2 insert_hasElement demo_set64 34 33 H34 H33).
Defined.

Lemma remove_hasElement_witness :
  1 <= 5 <= 32 ∧ 1 <= 3 <= 32 ∧
  QPSet32.hasElement (QPSet32.remove demo_set32 5) 3
  = negb (3 =? 5) && QPSet32.hasElement demo_set32 3 ∧
  1 <= 33 <= 64 ∧ 1 <= 40 <= 64 ∧
  QPSet64.hasElement (QPSet64.remove demo_set64 33) 40
  = negb (40 =? 33) && QPSet64.hasElement demo_set64 40.
Proof.
  assert (H5 : 1 <= 5 <= 32) by lia. assert (H3 : 1 <= 3 <= 32) by lia.
  assert (H33 : 1 <= 33 <= 64) by lia. assert (H40 : 1 <= 40 <= 64) by lia.
  split; [exact H5|]. split; [exact H3|].
  split; [exact (proj1 remove_hasElement demo_set32 5 3 H5 H3)|].
  split; [exact H33|]. split; [exact H40|].
  exact (proj2 remove_hasElement demo_set64 33 40 H33 H40).
Defined.

Lemma isEmpty_no_element_witness :
  wf32 demo_set32 ∧
  (QPSet32.isEmpty demo_set32 = true ↔
   ∀ n, 1 <= n <= 32 → QPSet32.hasElement demo_set32 n = false) ∧
  wf64 demo_set64 ∧
  (QPSet64.isEmpty demo_set64 = true ↔
   ∀ n, 1 <= n <= 64 → QPSet64.hasElement demo_set64 n = false).
Proof.
  split; [exact demo_set32_wf|].
  split; [exact (proj1 isEmpty_no_element demo_set32 demo_set32_wf)|].
  split; [exact demo_set64_wf|].
  exact (proj2 isEmpty_no_element demo_set64 demo_set64_wf).
Defined.

Lemma findMax_member_or_zero_witness :
  wf32 demo_set32 ∧ QPSet32.isEmpty demo_set32 = false ∧
  (1 <= QPSet32.findMax demo_set32 <= 32 ∧
   QPSet32.hasElement demo_set32 (QPSet32.findMax demo_set32) = true ∧
   ∀ n, 1 <= n <= 32 → QPSet32.hasElement demo_set32 n = true →
        n <= QPSet32.findMax demo_set32) ∧
  wf64 demo_set64 ∧ QPSet64.isEmpty demo_set64 = false ∧
  (1 <= QPSet64.findMax demo_set64 <= 64 ∧
   QPSet64.hasElement demo_set64 (QPSet64.findMax demo_set64) = true ∧
   ∀ n, 1 <= n <= 64 → QPSet64.hasElement demo_set64 n = true →
        n <= QPSet64.findMax demo_set64).
Proof.
  assert (H32 : QPSet32.isEmpty demo_set32 = false) by reflexivity.
  assert (H64 : QPSet64.isEmpty demo_set64 = false) by reflexivity.
  split; [exact demo_set32_wf|]. split; [exact H32|].
  split; [exact (proj2 (proj1 findMax_member_or_zero demo_set32 demo_set32_wf) H32)|].
  split; [exact demo_set64_wf|]. split; [exact H64|].
  exact (proj2 (proj2 findMax_member_or_zero demo_set64 demo_set64_wf) H64).
Defined.

Lemma remove_findMax_decreases_witness :
  wf32 demo_set32 ∧ QPSet32.isEmpty demo_set32 = false ∧
  (wf32 (QPSet32.remove demo_set32 (QPSet32.findMax demo_set32)) ∧
   QPSet32.findMax (QPSet32.remove demo_set32 (QPSet32.findMax demo_set32))
   < QPSet32.findMax demo_set32) ∧
  wf64 demo_set64 ∧ QPSet64.isEmpty demo_set64 = false ∧
  (wf64 (QPSet64.remove demo_set64 (QPSet64.findMax demo_set64)) ∧
   QPSet64.findMax (QPSet64.remove demo_set64 (QPSet64.findMax demo_set64))
   < QPSet64.findMax demo_set64).
Proof.
  assert (H32 : QPSet32.isEmpty demo_set32 = false) by reflexivity.
  assert (H64 : QPSet64.isEmpty demo_set64 = false) by reflexivity.
  split; [exact demo_set32_wf|]. split; [exact H32|].
  split; [exact (proj1 remove_findMax_decreases demo_set32 demo_set32_wf H32)|].
  split; [exact demo_set64_wf|]. split; [exact H64|].
  exact (proj2 remove_findMax_decreases demo_set64 demo_set64_wf H64).
Defined.

Lemma insert_remove_round_trip_witness :
  wf32 demo_set32 ∧ 1 <= 7 <= 32 ∧ QPSet32.hasElement demo_set32 7 = false ∧
  QPSet32.remove (QPSet32.insert demo_set32 7) 7 = demo_set32 ∧
  wf64 demo_set64 ∧ 1 <= 33 <= 64 ∧ QPSet64.hasElement demo_set64 33 = true ∧
  QPSet64.insert (QPSet64.remove demo_set64 33) 33 = demo_set64.
Proof.
  assert (H7 : 1 <= 7 <= 32) by lia. assert (H33 : 1 <= 33 <= 64) by lia.
  assert (Hout : QPSet32.hasElement demo_set32 7 = false) by reflexivity.
  assert (Hin : QPSet64.hasElement demo_set64 33 = true) by reflexivity.
  split; [exact demo_set32_wf|]. split; [exact H7|]. split; [exact Hout|].
  split; [exact (proj1 (proj1 insert_remove_round_trip demo_set32 7
                          demo_set32_wf H7) Hout)|].
  split; [exact demo_set64_wf|]. split; [exact H33|]. split; [exact Hin|].
  exact (proj2 (proj2 insert_remove_round_trip demo_set64 33
                  demo_set64_wf H33) Hin).
Defined.

Lemma run_keeps_capacity_witness :
  ∃ rs s',
    run 8 gc_none [OpPost 4 0; OpGet; OpPostLIFO 5; OpPost 3 3] demo_two
    = Ok (rs, s') ∧
    m_end (m_eQueue (me s')) = m_end (m_eQueue (me demo_two)) ∧
    length (m_ring (m_eQueue (me s')))
    = length (m_ring (m_eQueue (me demo_two))) ∧
    m_prio (me s') = m_prio (me demo_two).
Proof.
  eexists _, _. split; [vm_compute; reflexivity|].
  eapply (run_keeps_capacity 8 gc_none
            [OpPost 4 0; OpGet; OpPostLIFO 5; OpPost 3 3] demo_two).
  vm_compute. reflexivity.
Defined.

Lemma gc_exactly_refused_witness :
  ∃ rs s',
    run 8 gc_none [OpPost 5 1; OpPost 5 0; OpGet; OpPost 3 7] demo_four
    = Ok (rs, s') ∧
    gc_calls (port_log s')
    = gc_calls (port_log demo_four)
      ++ refused [OpPost 5 1; OpPost 5 0; OpGet; OpPost 3 7] rs.
Proof.
  eexists _, _. split; [vm_compute; reflexivity|].
  apply (gc_exactly_refused 8 gc_none
           [OpPost 5 1; OpPost 5 0; OpGet; OpPost 3 7] demo_four).
  vm_compute. reflexivity.
Defined.

Lemma run_refines_deque_witness :
  Rep 8 (m_eQueue (me demo_two)) [1; 2] ∧
  respects 8 gc_none [OpPost 3 0; OpGet; OpPostLIFO 4; OpPost 5 3] demo_two ∧
  ∃ s', run 8 gc_none [OpPost 3 0; OpGet; OpPostLIFO 4; OpPost 5 3] demo_two
        = Ok (abs_results 8 (m_end (m_eQueue (me demo_two)))
                [OpPost 3 0; OpGet; OpPostLIFO 4; OpPost 5 3] [1; 2], s') ∧
        Rep 8 (m_eQueue (me s'))
            (abs_held 8 (m_end (m_eQueue (me demo_two)))
               [OpPost 3 0; OpGet; OpPostLIFO 4; OpPost 5 3] [1; 2]).
Proof.
  assert (Hres : respects 8 gc_none
                   [OpPost 3 0; OpGet; OpPostLIFO 4; OpPost 5 3] demo_two)
    by respects_by_evaluation.
  split; [exact demo_two_Rep|]. split; [exact Hres|].
  exact (run_refines_deque 8 gc_none _ demo_two [1; 2] demo_two_Rep Hres).
Defined.

Lemma run_conserves_events_witness :
  Rep 8 (m_eQueue (me demo_three)) [1; 2; 3] ∧
  respects 8 gc_none [OpGet; OpPost 4 2; OpPost 5 0; OpGet] demo_three ∧
  ∃ rs s' l',
    run 8 gc_none [OpGet; OpPost 4 2; OpPost 5 0; OpGet] demo_three
    = Ok (rs, s') ∧
    Rep 8 (m_eQueue (me s')) l' ∧
    delivered rs ++ l'
    ≡ₚ [1; 2; 3] ++ accepted [OpGet; OpPost 4 2; OpPost 5 0; OpGet] rs.
Proof.
  assert (Hres : respects 8 gc_none
                   [OpGet; OpPost 4 2; OpPost 5 0; OpGet] demo_three)
    by respects_by_evaluation.
  split; [exact demo_three_Rep|]. split; [exact Hres|].
  exact (run_conserves_events 8 gc_none _ demo_three [1; 2; 3]
           demo_three_Rep Hres).
Defined.

Lemma signal_tracks_nonempty_witness :
  Rep 8 (m_eQueue (me demo_empty)) [] ∧
  respects 8 gc_none [OpPost 1 0; OpPost 2 0; OpGet; OpGet; OpPostLIFO 3]
           demo_empty ∧
  signal_balance (port_log demo_empty)
  = (if m_frontEvt (m_eQueue (me demo_empty)) =? 0 then 0 else 1) ∧
  ∃ rs s',
    run 8 gc_none [OpPost 1 0; OpPost 2 0; OpGet; OpGet; OpPostLIFO 3]
        demo_empty = Ok (rs, s') ∧
    signal_balance (port_log s')
    = (if m_frontEvt (m_eQueue (me s')) =? 0 then 0 else 1).
Proof.
  assert (Hres : respects 8 gc_none
                   [OpPost 1 0; OpPost 2 0; OpGet; OpGet; OpPostLIFO 3]
                   demo_empty)
    by respects_by_evaluation.
  assert (Hbal : signal_balance (port_log demo_empty)
                 = (if m_frontEvt (m_eQueue (me demo_empty)) =? 0
                    then 0 else 1)) by reflexivity.
  split; [exact demo_empty_Rep|]. split; [exact Hres|]. split; [exact Hbal|].
  exact (signal_tracks_nonempty 8 gc_none _ demo_empty [] demo_empty_Rep
           Hres Hbal).
Defined.

Lemma post__keeps_margin_witness :
  0 <= m_nFree (m_eQueue (me demo_three)) < 2 ^ 8 ∧
  ∃ s', post_ 8 gc_none 4 1 demo_three = Ok (true, s') ∧
        to_ctr 8 1 <= m_nFree (m_eQueue (me s')) ∧
        m_nFree (m_eQueue (me s')) < m_nFree (m_eQueue (me demo_three)).
Proof.
  assert (Hn : 0 <= m_nFree (m_eQueue (me demo_three)) < 2 ^ 8)
    by (simpl; lia).
  split; [exact Hn|].
  eexists. split; [vm_compute; reflexivity|].
  apply (post__keeps_margin 8 gc_none 4 1 demo_three _ Hn).
  vm_compute. reflexivity.
Defined.

Lemma run_counts_references_witness :
  ∃ rs s',
    run 8 gc_none [OpPost 4 0; OpPostLIFO 4; OpGet; OpPost 1 1] demo_one
    = Ok (rs, s') ∧
    refused [OpPost 4 0; OpPostLIFO 4; OpGet; OpPost 1 1] rs = [] ∧
    evts s' !! 4
    = counted (occurrences 4
                 (accepted [OpPost 4 0; OpPostLIFO 4; OpGet; OpPost 1 1] rs))
      <$> evts demo_one !! 4.
Proof.
  eexists _, _. split; [vm_compute; reflexivity|].
  split; [reflexivity|].
  apply (run_counts_references 8 gc_none
           [OpPost 4 0; OpPostLIFO 4; OpGet; OpPost 1 1] demo_one).
  - vm_compute. reflexivity.
  - reflexivity.
Defined.

Lemma static_event_untouched_witness :
  evts demo_two !! 1 = Some (QEVT_INITIALIZER 2 11) ∧
  (∀ margin s', post_ 8 gc_none 1 margin demo_two = Ok (true, s') →
                evts s' = evts demo_two) ∧
  (∀ s', postLIFO 8 1 demo_two = Ok (tt, s') → evts s' = evts demo_two).
Proof.
  assert (H : evts demo_two !! 1 = Some (QEVT_INITIALIZER 2 11))
    by (vm_compute; reflexivity).
  split; [exact H|].
  exact (static_event_untouched 8 gc_none 2 11 1 demo_two H).
Defined.

Lemma run_keeps_bounds_witness :
  Rep 8 (m_eQueue (me demo_four)) [1; 2; 3; 4] ∧
  respects 8 gc_none [OpPost 5 0; OpGet; OpGet; OpPostLIFO 1; OpPost 2 9]
           demo_four ∧
  ∃ rs s',
    run 8 gc_none [OpPost 5 0; OpGet; OpGet; OpPostLIFO 1; OpPost 2 9]
        demo_four = Ok (rs, s') ∧
    0 <= m_nMin (m_eQueue (me s')) <= m_nFree (m_eQueue (me s')) ∧
    m_nFree (m_eQueue (me s')) <= m_end (m_eQueue (me s')) + 1 ∧
    m_nFree (m_eQueue (me s')) < 2 ^ 8 ∧
    Z.of_nat (length (m_ring (m_eQueue (me s')))) = m_end (m_eQueue (me s')) ∧
    (0 < m_end (m_eQueue (me s')) →
     0 <= m_head (m_eQueue (me s')) < m_end (m_eQueue (me s')) ∧
     0 <= m_tail (m_eQueue (me s')) < m_end (m_eQueue (me s'))).
Proof.
  assert (Hres : respects 8 gc_none
                   [OpPost 5 0; OpGet; OpGet; OpPostLIFO 1; OpPost 2 9]
                   demo_four)
    by respects_by_evaluation.
  split; [exact demo_four_Rep|]. split; [exact Hres|].
  exact (run_keeps_bounds 8 gc_none _ demo_four [1; 2; 3; 4]
           demo_four_Rep Hres).
Defined.

(** A registry for priorities 0 to 8 in which only priority 3 is taken. *)
Definition demo_active : list (option QMActive) :=
  [None; None; None; Some (me demo_three); None; None; None; None; None].

Lemma getQueueMin_checks_priority_witness :
  0 <= 3 ∧ 0 <= 8 ∧ Z.of_nat (length demo_active) = 8 + 1 ∧
  (getQueueMin 16 8 3 demo_active = AssertFail 400 ↔
   8 < 3 ∨ demo_active !! Z.to_nat 3 = Some None) ∧
  (getQueueMin 16 8 3 demo_active = AssertFail 400 ∨
   ∃ a, demo_active !! Z.to_nat 3 = Some (Some a) ∧
        getQueueMin 16 8 3 demo_active
        = Ok (to_fast16 16 (m_nMin (m_eQueue a)), demo_active)).
Proof.
  assert (H3 : 0 <= 3) by lia. assert (H8 : 0 <= 8) by lia.
  assert (Hlen : Z.of_nat (length demo_active) = 8 + 1) by reflexivity.
  split; [exact H3|]. split; [exact H8|]. split; [exact Hlen|].
  exact (getQueueMin_checks_priority 16 8 3 demo_active H3 H8 Hlen).
Defined.

Lemma queue_fills_to_capacity_witness :
  Rep 8 (m_eQueue (me demo_three)) [1; 2; 3] ∧
  Forall (valid_evt (evts demo_three)) [4; 5] ∧
  Z.of_nat (length [1; 2; 3]) + Z.of_nat (length [4; 5])
  = m_end (m_eQueue (me demo_three)) + 1 ∧
  ∃ s1, run 8 gc_none (posts (map (fun e => (e, 0)) [4; 5])) demo_three
        = Ok (map (fun _ => RPost true) [4; 5], s1) ∧
        Rep 8 (m_eQueue (me s1)) ([1; 2; 3] ++ [4; 5]) ∧
        m_nFree (m_eQueue (me s1)) = 0 ∧
        (∀ e, e ≠ 0 → post_ 8 gc_none e 0 s1 = AssertFail 110) ∧
        (∀ e margin, e ≠ 0 → margin ≠ 0 →
                     ∃ s', post_ 8 gc_none e margin s1 = Ok (false, s')).
Proof.
  assert (Hv : Forall (valid_evt (evts demo_three)) [4; 5])
    by (repeat constructor; apply demo_valid; lia).
  assert (Hlen : Z.of_nat (length [1; 2; 3]) + Z.of_nat (length [4; 5])
                 = m_end (m_eQueue (me demo_three)) + 1) by reflexivity.
  split; [exact demo_three_Rep|]. split; [exact Hv|]. split; [exact Hlen|].
  exact (queue_fills_to_capacity 8 gc_none demo_three [1; 2; 3] [4; 5]
           demo_three_Rep Hv Hlen).
Defined.
